(** * Verification of the web-server log-line parser (neurons/parsing.py),
      of the reward function and the choice of the query
      (neurons/validator.py) and of [process_responses] (neurons/api.py).

    Python strings are modelled as lists of characters.  A character is a
    code point in the range 0..255 ([ascii]); on that range the classes
    [\d], [\s] and [.] of Python's [re] module are the ones written below.
    The regular expressions of [parse] are kept as data and run by a
    backtracking matcher with the priorities of [re]: leftmost start,
    greedy repetitions longest first, lazy repetitions shortest first. *)

From Stdlib Require Import ZArith QArith Ascii String List Lia Bool.
From stdpp Require Import gmap strings list.
Import ListNotations.

Local Open Scope string_scope.
Local Open Scope list_scope.
Local Open Scope nat_scope.

(** ** Text and character classes *)

Definition chars (s : string) : list ascii := list_ascii_of_string s.

Definition code (c : ascii) : nat := nat_of_ascii c.

(** [\d] : a decimal digit. *)
Definition is_digit (c : ascii) : bool :=
  (48 <=? code c) && (code c <=? 57).

(** [\s] : white space, as [str.isspace] has it below code point 256. *)
Definition is_space (c : ascii) : bool :=
  ((9 <=? code c) && (code c <=? 13))
  || ((28 <=? code c) && (code c <=? 32))
  || (code c =? 133) || (code c =? 160).

Definition is_char (c : ascii) (a : ascii) : bool := Ascii.eqb c a.

Inductive cclass : Type :=
| CDigit                (* \d *)
| CNonSpace             (* \S *)
| CAny                  (* .  : anything but a newline *)
| CDigitOrDot           (* [\d.] *)
| CLit (c : ascii).     (* a literal character *)

Definition in_class (k : cclass) (c : ascii) : bool :=
  match k with
  | CDigit => is_digit c
  | CNonSpace => negb (is_space c)
  | CAny => negb (code c =? 10)
  | CDigitOrDot => is_digit c || (code c =? 46)
  | CLit d => Ascii.eqb d c
  end.

(** ** Regular expressions of the fragment [parse] uses *)

Inductive item : Type :=
| Rep (k : cclass) (lo : nat) (hi : option nat) (greedy : bool)
| Str (l : list ascii)
| Open (g : string)
| Close (g : string)
| NotBehind (k : cclass)
| NotAhead (k : cclass).

Definition pattern := list item.

(** The outcome of matching a pattern at one position: the text consumed by
    each item, in order, and the text left after the match. *)
Definition pieces : Type := list (list ascii) * list ascii.

Definition first_of {A} (x y : option A) : option A :=
  match x with Some _ => x | None => y end.

Definition can_take (hi : option nat) : bool :=
  match hi with Some 0 => false | _ => true end.

Definition dec_hi (hi : option nat) : option nat :=
  match hi with Some n => Some (pred n) | None => None end.

(** Stopping a repetition: allowed once the lower bound is used up; the
    continuation then has to match. *)
Definition rep_stop {R} (kont : option ascii -> list ascii -> option R)
    (lo : nat) (prev : option ascii) (s : list ascii)
    : option (list ascii * R) :=
  match lo with
  | 0 => match kont prev s with Some r => Some ([], r) | None => None end
  | S _ => None
  end.

Definition cons_piece {R} (a : ascii) (x : option (list ascii * R))
    : option (list ascii * R) :=
  match x with Some (p, r) => Some (a :: p, r) | None => None end.

(** [rep] runs one repetition [k{lo,hi}] followed by the continuation [kont].
    A greedy repetition first tries to take one more character and only
    then to stop; a lazy one does the reverse. *)
Fixpoint rep {R} (k : cclass) (greedy : bool)
    (kont : option ascii -> list ascii -> option R)
    (lo : nat) (hi : option nat) (prev : option ascii) (s : list ascii)
    {struct s} : option (list ascii * R) :=
  let more :=
    match s with
    | a :: s' =>
        if in_class k a && can_take hi then
          cons_piece a (rep k greedy kont (pred lo) (dec_hi hi) (Some a) s')
        else None
    | [] => None
    end in
  if greedy then first_of more (rep_stop kont lo prev s)
  else first_of (rep_stop kont lo prev s) more.

(** Taking one more character in a repetition. *)
Definition rep_more {R} k g (kont : option ascii -> list ascii -> option R)
    lo hi (s : list ascii) : option (list ascii * R) :=
  match s with
  | a :: s' =>
      if in_class k a && can_take hi
      then cons_piece a (rep k g kont (pred lo) (dec_hi hi) (Some a) s')
      else None
  | [] => None
  end.

(** The character before the position reached after reading [p]. *)
Definition after (prev : option ascii) (p : list ascii) : option ascii :=
  fold_left (fun _ c => Some c) p prev.

Definition within (hi : option nat) (n : nat) : Prop :=
  match hi with Some h => n <= h | None => True end.

(** [strip l prev s] removes the literal [l] from the front of [s]. *)
Fixpoint strip (l : list ascii) (prev : option ascii) (s : list ascii)
    : option (option ascii * list ascii) :=
  match l with
  | [] => Some (prev, s)
  | c :: l' =>
      match s with
      | a :: s' => if Ascii.eqb c a then strip l' (Some a) s' else None
      | [] => None
      end
  end.

Definition push (p : list ascii) (r : option pieces) : option pieces :=
  match r with
  | Some (ps, rest) => Some (p :: ps, rest)
  | None => None
  end.

(** [match_at its prev s] matches the pattern at the front of [s]; [prev] is
    the character just before, if any. *)
Fixpoint match_at (its : pattern) (prev : option ascii) (s : list ascii)
    : option pieces :=
  match its with
  | [] => Some ([], s)
  | it :: its' =>
      match it with
      | Rep k lo hi g =>
          match rep k g (match_at its') lo hi prev s with
          | Some (p, (ps, rest)) => Some (p :: ps, rest)
          | None => None
          end
      | Str l =>
          match strip l prev s with
          | Some (prev', s') => push l (match_at its' prev' s')
          | None => None
          end
      | Open _ | Close _ => push [] (match_at its' prev s)
      | NotBehind k =>
          match prev with
          | Some a => if in_class k a then None else push [] (match_at its' prev s)
          | None => push [] (match_at its' prev s)
          end
      | NotAhead k =>
          match s with
          | a :: _ => if in_class k a then None else push [] (match_at its' prev s)
          | [] => push [] (match_at its' prev s)
          end
      end
  end.

(** A match object: the pattern, the text before the match, the text of each
    item and the text after the match. *)
Record Match : Type := mkMatch {
  m_re : pattern;
  m_before : list ascii;
  m_pieces : list (list ascii);
  m_after : list ascii
}.

(** [find] scans the start positions from the left. *)
Fixpoint find (its : pattern) (prev : option ascii) (s : list ascii)
    : option (list ascii * pieces) :=
  match match_at its prev s with
  | Some r => Some ([], r)
  | None =>
      match s with
      | c :: s' =>
          match find its (Some c) s' with
          | Some (pre, r) => Some (c :: pre, r)
          | None => None
          end
      | [] => None
      end
  end.

(** [re.search(pattern, s)] *)
Definition re_search (its : pattern) (s : list ascii) : option Match :=
  match find its None s with
  | Some (pre, (ps, rest)) => Some (mkMatch its pre ps rest)
  | None => None
  end.

(** [re.sub(pattern, '', s, count=1)] *)
Definition re_sub1 (its : pattern) (s : list ascii) : list ascii :=
  match find its None s with
  | Some (pre, (_, rest)) => pre ++ rest
  | None => s
  end.

(** [match.group()] *)
Definition group0 (m : Match) : list ascii := concat (m_pieces m).

Fixpoint group_text (g : string) (its : pattern) (ps : list (list ascii))
    (inside : bool) : list ascii :=
  match its, ps with
  | it :: its', p :: ps' =>
      match it with
      | Open g' =>
          group_text g its' ps' (if String.eqb g g' then true else inside)
      | Close g' =>
          if String.eqb g g' then [] else group_text g its' ps' inside
      | _ => (if inside then p else []) ++ group_text g its' ps' inside
      end
  | _, _ => []
  end.

(** [match.group(name)], for a group the pattern has: [parse] asks for no
    other (Python raises [IndexError] for a name the pattern lacks). *)
Definition group (m : Match) (g : string) : list ascii :=
  group_text g (m_re m) (m_pieces m) false.

(** ** The patterns of [parse] (parsing.py, lines 25-36) *)

Definition digits13 : item := Rep CDigit 1 (Some 3) true.
Definition digit1 : item := Rep CDigit 1 (Some 1) true.

(** [\d{1,3}\.\d{1,3}\.\d{1,3}\.\d{1,3}] *)
Definition ip_pattern : pattern :=
  [digits13; Str (chars "."); digits13; Str (chars "."); digits13;
   Str (chars "."); digits13].

(** [\[(?P<timestamp>.*?)\]] *)
Definition timestamp_pattern : pattern :=
  [Str (chars "["); Open "timestamp"; Rep CAny 0 None false;
   Close "timestamp"; Str (chars "]")].

(** The request pattern: a double quote, the group [method] (a greedy star
    over [.]), a space, the group [url] ([/\S+]), a space, the group
    [protocol] ([HTTP/\d\.\d]) and a double quote. *)
Definition dquote : ascii := ascii_of_nat 34.

Definition request_info_pattern : pattern :=
  [Str [dquote];
   Open "method"; Rep CAny 0 None true; Close "method";
   Str (chars " ");
   Open "url"; Str (chars "/"); Rep CNonSpace 1 None true; Close "url";
   Str (chars " ");
   Open "protocol"; Str (chars "HTTP/"); digit1; Str (chars "."); digit1;
   Close "protocol";
   Str [dquote]].

(** [(?<![\d.])\d{3}(?![\d.])] *)
Definition status_code_pattern : pattern :=
  [NotBehind CDigitOrDot; Rep CDigit 3 (Some 3) true; NotAhead CDigitOrDot].

(** [\d+] *)
Definition bytes_sent_pattern : pattern :=
  [Rep CDigit 1 None true].

Definition patterns : list (string * pattern) :=
  [("ip", ip_pattern);
   ("timestamp", timestamp_pattern);
   ("request_info", request_info_pattern);
   ("status_code", status_code_pattern);
   ("bytes_sent", bytes_sent_pattern)].


(** ** Python values, exceptions and dictionaries *)

(** The exception classes that occur.  dateutil's [ParserError] is a subclass
    of [ValueError] and is modelled by it. *)
Inductive exn : Type := AttributeError | ValueError | OverflowError.

Definition exn_eqb (a b : exn) : bool :=
  match a, b with
  | AttributeError, AttributeError => true
  | ValueError, ValueError => true
  | OverflowError, OverflowError => true
  | _, _ => false
  end.

Inductive result (A : Type) : Type :=
| Ok (a : A)
| Raise (e : exn).
Arguments Ok {A} a.
Arguments Raise {A} e.

#[export] Instance result_bind : MBind result := fun A B f x =>
  match x with
  | Ok a => f a
  | Raise e => Raise e
  end.

(** [try: body  except handled: handler] *)
Definition try_except {A} (body : result A) (handled : list exn)
    (handler : result A) : result A :=
  match body with
  | Ok a => Ok a
  | Raise e => if existsb (exn_eqb e) handled then handler else Raise e
  end.

(** [datetime.datetime]; [utcoffset] is the offset of the time zone in
    seconds, [None] for a naive value. *)
Record datetime : Type := mkDatetime {
  year : Z; month : Z; day : Z;
  hour : Z; minute : Z; second : Z;
  utcoffset : option Z
}.

Inductive pyval : Type :=
| PNone
| PBool (b : bool)
| PInt (n : Z)
| PStr (s : list ascii)
| PDatetime (d : datetime)
| PMatch (m : Match).

(** Truth value of an object, as [if x:] tests it. *)
Definition truthy (v : pyval) : bool :=
  match v with
  | PNone => false
  | PBool b => b
  | PInt n => negb (n =? 0)%Z
  | PStr s => match s with [] => false | _ => true end
  | PDatetime _ => true
  | PMatch _ => true
  end.

(** Truth value of [d.get(key)]: a missing key gives [None]. *)
Definition truthy_get (o : option pyval) : bool :=
  match o with
  | Some v => truthy v
  | None => false
  end.

Definition text_eqb (s t : list ascii) : bool :=
  bool_decide (s = t).

(** [v == s] for a string [s]. *)
Definition eq_str (v : pyval) (s : list ascii) : bool :=
  match v with
  | PStr t => text_eqb t s
  | _ => false
  end.

(** parsing.py, lines 10-11 *)
Definition INVALID_text : list ascii := chars "INVALID".
Definition INVALID : pyval := PStr INVALID_text.
Definition METHODS : list (list ascii) :=
  [chars "GET"; chars "POST"; chars "PUT"; chars "DELETE"].

(** ** Library functions [parse] calls *)

Definition digit_value (c : ascii) : Z := Z.of_nat (code c - 48).

Definition decimal (s : list ascii) : Z :=
  fold_left (fun acc c => (10 * acc + digit_value c)%Z) s 0%Z.

(** One octet of a dotted quad, as [ipaddress.IPv4Address] checks it: one to
    three decimal digits, no leading zero in front of other digits, at most
    255. *)
Definition octet_ok (o : list ascii) : bool :=
  forallb is_digit o
  && (1 <=? length o) && (length o <=? 3)
  && match o with
     | z :: _ :: _ => negb (code z =? 48)
     | _ => true
     end
  && (decimal o <=? 255)%Z.

(** [s.split('.')] *)
Fixpoint split_dots (s : list ascii) : list (list ascii) :=
  match s with
  | [] => [[]]
  | c :: s' =>
      if code c =? 46 then [] :: split_dots s'
      else match split_dots s' with
           | p :: ps => (c :: p) :: ps
           | [] => [[c]]
           end
  end.

(** [ipaddress.ip_address(s)] on a text without a colon: the text has to be a
    dotted quad of four good octets, else [ValueError] is raised.  The ip
    pattern only ever passes digits and dots to it. *)
Definition ip_address (s : list ascii) : result unit :=
  match split_dots s with
  | [a; b; c; d] =>
      if octet_ok a && octet_ok b && octet_ok c && octet_ok d
      then Ok tt else Raise ValueError
  | _ => Raise ValueError
  end.

Section Parser.

(** [dateutil.parser.parse]: a third-party function, taken as a parameter.
    It returns a date-time or raises. *)
Variable parse_date : list ascii -> result datetime.

(** The limit of [int] on the length of a digit run
    ([sys.get_int_max_str_digits()], 4300 by default since CPython 3.11):
    [None] when it is switched off or absent, [Some e] for a limit of
    [640 + e] digits, since CPython accepts no limit under 640. *)
Variable digit_limit : option nat.

(** [int(s)] on a run of decimal digits: the only texts the bytes pattern
    passes to it.  On other texts (white space around the digits, a sign,
    underscores) [int] accepts more than this function; [parse] never
    passes one. *)
Definition py_int (s : list ascii) : result pyval :=
  if forallb is_digit s && (1 <=? length s) then
    match digit_limit with
    | Some e =>
        if 640 + e <? length s then Raise ValueError
        else Ok (PInt (decimal s))
    | None => Ok (PInt (decimal s))
    end
  else Raise ValueError.

(** [v.group()] and [v.group(name)]: only a match object has the method. *)
Definition py_group0 (o : option pyval) : result (list ascii) :=
  match o with
  | Some (PMatch m) => Ok (group0 m)
  | _ => Raise AttributeError
  end.

Definition py_group (o : option pyval) (g : string) : result (list ascii) :=
  match o with
  | Some (PMatch m) => Ok (group m g)
  | _ => Raise AttributeError
  end.

(** ** [parse] (parsing.py, lines 24-53) *)

(** One turn of the loop over the patterns. *)
Definition extract_step (st : gmap string pyval * list ascii)
    (kp : string * pattern) : gmap string pyval * list ascii :=
  let '(extracted_info, remaining_logline) := st in
  let '(key, pat) := kp in
  match re_search pat remaining_logline with
  | Some m => (<[key := PMatch m]> extracted_info, re_sub1 pat remaining_logline)
  | None => (extracted_info, remaining_logline)
  end.

Definition extract_from (ps : list (string * pattern))
    (st : gmap string pyval * list ascii) : gmap string pyval * list ascii :=
  fold_left extract_step ps st.

Definition extract (logline_input : list ascii)
    : gmap string pyval * list ascii :=
  extract_from patterns (∅, logline_input).

(** ** [transform_extracted_info] (parsing.py, lines 56-95) *)

Definition transform_ip (info : gmap string pyval)
    : result (gmap string pyval) :=
  try_except
    (ip ← py_group0 (info !! "ip");
     _ ← ip_address ip;
     Ok (<["ip" := PStr ip]> info))
    [ValueError; AttributeError]
    (Ok (<["ip" := INVALID]> info)).

Definition transform_timestamp (info : gmap string pyval)
    : result (gmap string pyval) :=
  try_except
    (timestamp_match ← py_group (info !! "timestamp") "timestamp";
     d ← parse_date timestamp_match;
     Ok (<["timestamp" := PDatetime d]> info))
    [AttributeError]
    (Ok (<["timestamp" := INVALID]> info)).

Definition transform_request (info : gmap string pyval)
    : result (gmap string pyval) :=
  let request_match := info !! "request_info" in
  if truthy_get request_match then
    method ← py_group request_match "method";
    let info := <["method" := PStr method]> info in
    let info :=
      if existsb (text_eqb method) METHODS then info
      else <["method" := INVALID]> info in
    url ← py_group request_match "url";
    let info := <["url" := PStr url]> info in
    protocol ← py_group request_match "protocol";
    let info := <["protocol" := PStr protocol]> info in
    Ok (delete "request_info" info)
  else
    Ok (<["protocol" := INVALID]>
         (<["url" := INVALID]> (<["method" := INVALID]> info))).

Definition transform_status_code (info : gmap string pyval)
    : result (gmap string pyval) :=
  let status_code_match := info !! "status_code" in
  if truthy_get status_code_match then
    s ← py_group0 status_code_match;
    Ok (<["status_code" := PStr s]> info)
  else Ok (<["status_code" := INVALID]> info).

Definition transform_bytes_sent (info : gmap string pyval)
    : result (gmap string pyval) :=
  let bytes_sent_match := info !! "bytes_sent" in
  if truthy_get bytes_sent_match then
    s ← py_group0 bytes_sent_match;
    n ← py_int s;
    Ok (<["bytes_sent" := n]> info)
  else Ok (<["bytes_sent" := INVALID]> info).

Definition transform_extracted_info (info : gmap string pyval)
    : result (gmap string pyval) :=
  info ← transform_ip info;
  info ← transform_timestamp info;
  info ← transform_request info;
  info ← transform_status_code info;
  transform_bytes_sent info.

(** The call of [ParsedWebserverLogLine] on the items of [extracted_info] builds a dictionary with the
    same items. *)
Definition parse (logline_input : list ascii) : result (gmap string pyval) :=
  transform_extracted_info (extract logline_input).1.

End Parser.

(** ** [reward] (validator.py, lines 121-137) *)

Definition keyed (kvs : list (string * pyval)) : gmap string pyval :=
  list_to_map kvs.

(** [ParsedWebserverLogLine.__annotations__.keys()] *)
Definition total_valid_keys : list string :=
  ["ip"; "timestamp"; "method"; "url"; "protocol"; "status_code";
   "bytes_sent"].

(** [response[key] not in [INVALID, '']] *)
Definition not_in_invalid_or_empty (v : pyval) : bool :=
  negb (eq_str v INVALID_text || eq_str v []).

Definition count_key (response : gmap string pyval) (valid_keys : nat)
    (valid_key : string) : nat :=
  if truthy_get (response !! valid_key) then
    match response !! valid_key with
    | Some v => valid_keys + (if not_in_invalid_or_empty v then 1 else 0)
    | None => valid_keys
    end
  else valid_keys.

Definition valid_keys_of (response : gmap string pyval) : nat :=
  fold_left (count_key response) total_valid_keys 0.

(** The quotient is a Python float; it is kept here as the exact rational
    the float rounds.  Comparisons of a reward with 0, with 1 and with the
    reward of another count carry over to the float; sums and differences
    of rewards do not, and none is stated. *)
Definition reward (query : list ascii) (response : gmap string pyval) : Q :=
  Z.of_nat (valid_keys_of response) # Pos.of_nat (length total_valid_keys).

Definition quoted (s : list ascii) : list ascii := dquote :: s ++ [dquote].

Definition example_line : list ascii :=
  chars "192.168.1.1 - - [09/Mar/2024 13:55:36 +0000] "
  ++ quoted (chars "GET /index.html HTTP/1.1") ++ chars " 200 5432".

(** ** A stand-in for dateutil on the Common Log Format

    [clf_parse_date] reads [DD/Mon/YYYY HH:MM:SS +HHMM], the shape the tests
    and the validator's example lines use, and raises [ValueError] on any
    other text.  It instantiates the parameter [parse_date] in the closed
    examples; dateutil agrees with it on every text used there. *)

Definition two (a b : ascii) : option Z :=
  if is_digit a && is_digit b then Some (decimal [a; b]) else None.

Definition month_of (s : list ascii) : option Z :=
  let names :=
    ["Jan"; "Feb"; "Mar"; "Apr"; "May"; "Jun";
     "Jul"; "Aug"; "Sep"; "Oct"; "Nov"; "Dec"] in
  (fix go (l : list string) (i : Z) : option Z :=
     match l with
     | [] => None
     | n :: l' => if text_eqb (chars n) s then Some i else go l' (i + 1)%Z
     end) names 1%Z.

Definition leap (y : Z) : bool :=
  ((y mod 4 =? 0) && negb (y mod 100 =? 0) || (y mod 400 =? 0))%Z.

Definition days_in (y m : Z) : Z :=
  if (m =? 2)%Z then (if leap y then 29 else 28)%Z
  else if ((m =? 4) || (m =? 6) || (m =? 9) || (m =? 11))%Z then 30%Z
  else 31%Z.

Definition clf_parse_date (s : list ascii) : result datetime :=
  match s with
  | [d1; d2; s1; m1; m2; m3; s2; y1; y2; y3; y4; sp1;
     h1; h2; c1; n1; n2; c2; e1; e2; sp2; sg; o1; o2; o3; o4] =>
      let fields :=
        dd ← two d1 d2; mo ← month_of [m1; m2; m3];
        ya ← two y1 y2; yb ← two y3 y4;
        hh ← two h1 h2; mi ← two n1 n2; ss ← two e1 e2;
        oh ← two o1 o2; om ← two o3 o4;
        sign ← (if code sg =? 43 then Some 1%Z
                else if code sg =? 45 then Some (-1)%Z else None);
        Some (dd, mo, (100 * ya + yb)%Z, hh, mi, ss,
              (sign * (3600 * oh + 60 * om))%Z, (oh, om)) in
      match fields with
      | Some (dd, mo, yy, hh, mi, ss, off, (oh, om)) =>
          if text_eqb [s1; s2; sp1; c1; c2; sp2] (chars "// :: ")
             && (1 <=? yy)%Z && (1 <=? dd)%Z && (dd <=? days_in yy mo)%Z
             && (hh <=? 23)%Z && (mi <=? 59)%Z && (ss <=? 59)%Z
             && (oh <=? 23)%Z && (om <=? 59)%Z
          then Ok (mkDatetime yy mo dd hh mi ss (Some off))
          else Raise ValueError
      | None => Raise ValueError
      end
  | _ => Raise ValueError
  end.

(** The default limit of 4300 digits. *)
Definition default_limit : option nat := Some 3660.

Definition all_invalid : gmap string pyval :=
  keyed (map (fun k => (k, INVALID)) total_valid_keys).

(** ** The stages of [parse], seen from outside

    [working_text n input] is [remaining_logline] when the loop reaches the
    pattern number [n], and [stage_match n input] the match it finds
    there. *)

Definition working_text (n : nat) (input : list ascii) : list ascii :=
  (extract_from (take n patterns) (∅, input)).2.

Definition stage_match (n : nat) (input : list ascii) : option Match :=
  match patterns !! n with
  | Some (_, pat) => re_search pat (working_text n input)
  | None => None
  end.

(** The value of each field, read off the match of its stage. *)

Definition ip_field (o : option Match) : pyval :=
  match o with
  | Some m =>
      match ip_address (group0 m) with
      | Ok _ => PStr (group0 m)
      | Raise _ => INVALID
      end
  | None => INVALID
  end.

Definition timestamp_field (parse_date : list ascii -> result datetime)
    (o : option Match) : result pyval :=
  match o with
  | Some m =>
      match parse_date (group m "timestamp") with
      | Ok d => Ok (PDatetime d)
      | Raise AttributeError => Ok INVALID
      | Raise e => Raise e
      end
  | None => Ok INVALID
  end.

Definition method_field (o : option Match) : pyval :=
  match o with
  | Some m =>
      if existsb (text_eqb (group m "method")) METHODS
      then PStr (group m "method") else INVALID
  | None => INVALID
  end.

Definition named_field (g : string) (o : option Match) : pyval :=
  match o with
  | Some m => PStr (group m g)
  | None => INVALID
  end.

Definition status_code_field (o : option Match) : pyval :=
  match o with
  | Some m => PStr (group0 m)
  | None => INVALID
  end.

Definition bytes_sent_field (digit_limit : option nat) (o : option Match)
    : result pyval :=
  match o with
  | Some m => py_int digit_limit (group0 m)
  | None => Ok INVALID
  end.

Definition record_of (parse_date : list ascii -> result datetime)
    (digit_limit : option nat) (o0 o1 o2 o3 o4 : option Match)
    : result (gmap string pyval) :=
  ts ← timestamp_field parse_date o1;
  b ← bytes_sent_field digit_limit o4;
  Ok (keyed [("ip", ip_field o0);
             ("timestamp", ts);
             ("method", method_field o2);
             ("url", named_field "url" o2);
             ("protocol", named_field "protocol" o2);
             ("status_code", status_code_field o3);
             ("bytes_sent", b)]).

(** [extracted_info] after the loop, from the five matches. *)
Definition put (key : string) (o : option Match) (info : gmap string pyval)
    : gmap string pyval :=
  match o with
  | Some m => <[key := PMatch m]> info
  | None => info
  end.

Definition info_of (o0 o1 o2 o3 o4 : option Match) : gmap string pyval :=
  put "bytes_sent" o4 (put "status_code" o3 (put "request_info" o2
    (put "timestamp" o1 (put "ip" o0 ∅)))).

(** Where the characters come from.  [origins n input] lists, for each
    character of [working_text n input], its position in [input];
    [captured n input] lists the positions of the characters that the match
    of stage [n] covers. *)
Definition cut {A} (i len : nat) (l : list A) : list A :=
  take i l ++ drop (i + len) l.

Definition span {A} (i len : nat) (l : list A) : list A :=
  take len (drop i l).

Fixpoint origins (n : nat) (input : list ascii) : list nat :=
  match n with
  | 0 => seq 0 (length input)
  | S n' =>
      match stage_match n' input with
      | Some m =>
          cut (length (m_before m)) (length (group0 m)) (origins n' input)
      | None => origins n' input
      end
  end.

Definition captured (n : nat) (input : list ascii) : list nat :=
  match stage_match n input with
  | Some m => span (length (m_before m)) (length (group0 m)) (origins n input)
  | None => []
  end.

(** The statement about the request fields: without a match of the request
    pattern in the working text all three are [INVALID]; with one, url and
    protocol are the captured texts and method is the captured text when it
    is one of [METHODS] and [INVALID] otherwise. *)
Definition request_unit (input : list ascii) (r : gmap string pyval) : Prop :=
  match re_search request_info_pattern (working_text 2 input) with
  | None =>
      r !! "method" = Some INVALID /\ r !! "url" = Some INVALID
      /\ r !! "protocol" = Some INVALID
  | Some m =>
      r !! "url" = Some (PStr (group m "url"))
      /\ r !! "protocol" = Some (PStr (group m "protocol"))
      /\ (In (group m "method") METHODS ->
          r !! "method" = Some (PStr (group m "method")))
      /\ (~ In (group m "method") METHODS -> r !! "method" = Some INVALID)
  end.

(** A character next to which the status pattern refuses to match. *)
Definition blocks_status (o : option ascii) : bool :=
  match o with
  | Some c => in_class CDigitOrDot c
  | None => false
  end.

(** The statement about the status code: the captured text is a run of
    three digits of the working text with no digit and no dot on either
    side, and it is the value of the field. *)
Definition status_isolated (input : list ascii) (m : Match)
    (r : gmap string pyval) : Prop :=
  exists a b c,
    group0 m = [a; b; c]
    /\ is_digit a = true /\ is_digit b = true /\ is_digit c = true
    /\ working_text 3 input = m_before m ++ [a; b; c] ++ m_after m
    /\ blocks_status (last (m_before m)) = false
    /\ blocks_status (head (m_after m)) = false
    /\ r !! "status_code" = Some (PStr [a; b; c]).

(** The statements about repeated tokens.  [leftmost m]: no match of the
    pattern starts to the left of [m]. *)
Definition leftmost (m : Match) : Prop :=
  forall pre1 c pre2,
    m_before m = pre1 ++ c :: pre2 ->
    match_at (m_re m) (after None pre1)
      (c :: pre2 ++ group0 m ++ m_after m) = None.

(** When the match starts at a bracket pair, the timestamp is the text of
    that pair and everything behind its closing bracket is left over. *)
Definition first_pair_read (m : Match) : Prop :=
  forall t post,
    group0 m ++ m_after m = chars "[" ++ t ++ chars "]" ++ post ->
    forallb (in_class CAny) t = true ->
    (forall c, In c t -> is_char "]" c = false) ->
    group m "timestamp" = t /\ m_after m = post.

(** When the text from the start of the match on ends in a request tail
    with no double quote behind it, url and protocol are read from that tail
    and the method group holds everything before it, earlier quoted requests
    included. *)
Definition last_tail_read (m : Match) : Prop :=
  forall X U a b post,
    group0 m ++ m_after m
      = [dquote] ++ X ++ chars " " ++ chars "/" ++ U ++ chars " "
        ++ chars "HTTP/" ++ [a] ++ chars "." ++ [b] ++ [dquote] ++ post ->
    forallb (in_class CAny) X = true ->
    forallb (in_class CNonSpace) U = true -> 1 <= length U ->
    is_digit a = true -> is_digit b = true ->
    ~ In dquote post ->
    group m "method" = X
    /\ group m "url" = chars "/" ++ U
    /\ group m "protocol" = chars "HTTP/" ++ [a] ++ chars "." ++ [b]
    /\ m_after m = post.

(** ** The quality score as the specification words it *)

(** A field counts as filled when it is present, is not [INVALID] and is
    not the empty string. *)
Definition spec_filled (response : gmap string pyval) (key : string) : bool :=
  match response !! key with
  | Some v => negb (eq_str v INVALID_text) && negb (eq_str v [])
  | None => false
  end.

Definition spec_filled_count (response : gmap string pyval) : nat :=
  length (List.filter (spec_filled response) total_valid_keys).

Definition spec_score (response : gmap string pyval) : Q :=
  Z.of_nat (spec_filled_count response)
  # Pos.of_nat (length total_valid_keys).

(** What [reward] counts: a field whose value is true as a condition and
    is not [INVALID]. *)
Definition code_filled (response : gmap string pyval) (key : string) : bool :=
  match response !! key with
  | Some v => truthy v && not_in_invalid_or_empty v
  | None => false
  end.

(** ** Lines made of the five tokens

    The five token classes, in the order of their stages. *)
Inductive kind : Type := KIp | KTimestamp | KRequest | KStatus | KBytes.

#[export] Instance kind_eq_dec : EqDecision kind.
Proof. solve_decision. Defined.


Definition kind_index (k : kind) : nat :=
  match k with
  | KIp => 0 | KTimestamp => 1 | KRequest => 2 | KStatus => 3 | KBytes => 4
  end.

(** The field values of a line: the four octets, the text between the
    brackets, the method, the url after its slash, the two digits of the
    protocol version, the status code and the byte count. *)
Record fields : Type := mkFields {
  f_o1 : list ascii; f_o2 : list ascii; f_o3 : list ascii; f_o4 : list ascii;
  f_stamp : list ascii;
  f_method : list ascii;
  f_path : list ascii;
  f_major : ascii; f_minor : ascii;
  f_status : list ascii;
  f_bytes : list ascii
}.

Definition ip_text (f : fields) : list ascii :=
  f_o1 f ++ chars "." ++ f_o2 f ++ chars "." ++ f_o3 f ++ chars "."
  ++ f_o4 f.

Definition url_text (f : fields) : list ascii := chars "/" ++ f_path f.

Definition protocol_text (f : fields) : list ascii :=
  chars "HTTP/" ++ [f_major f] ++ chars "." ++ [f_minor f].

Definition request_text (f : fields) : list ascii :=
  f_method f ++ chars " " ++ url_text f ++ chars " " ++ protocol_text f.

Definition token (f : fields) (k : kind) : list ascii :=
  match k with
  | KIp => ip_text f
  | KTimestamp => chars "[" ++ f_stamp f ++ chars "]"
  | KRequest => quoted (request_text f)
  | KStatus => f_status f
  | KBytes => f_bytes f
  end.

Definition octetb (o : list ascii) : bool :=
  forallb is_digit o && (1 <=? length o) && (length o <=? 3).

(** Each token is one its pattern matches as a whole. *)
Definition well_formed (f : fields) : bool :=
  octetb (f_o1 f) && octetb (f_o2 f) && octetb (f_o3 f) && octetb (f_o4 f)
  && forallb (fun c => in_class CAny c && negb (is_char "]" c)) (f_stamp f)
  && forallb (in_class CAny) (f_method f)
  && forallb (in_class CNonSpace) (f_path f) && (1 <=? length (f_path f))
  && is_digit (f_major f) && is_digit (f_minor f)
  && forallb is_digit (f_status f) && (length (f_status f) =? 3)
  && forallb is_digit (f_bytes f) && (1 <=? length (f_bytes f)).



(** The text the stage [n] sees where the token of kind [k] was written. *)
Definition shown (f : fields) (n : nat) (k : kind) : list ascii :=
  if n <=? kind_index k then token f k else [].

(** A line: each token with the gap in front of it, and the text after the
    last token.  [render f n] writes the line without the tokens of the
    stages before [n]. *)
Fixpoint render (f : fields) (n : nat) (slots : list (list ascii * kind))
    (trail : list ascii) : list ascii :=
  match slots with
  | [] => trail
  | (g, k) :: slots' =>
      g ++ shown f n k ++ render f n slots' trail
  end.



Definition line (f : fields) (slots : list (list ascii * kind))
    (trail : list ascii) : list ascii :=
  render f 0 slots trail.

(** The pieces each pattern reads off its token. *)
Definition token_pieces (f : fields) (k : kind) : list (list ascii) :=
  match k with
  | KIp =>
      [f_o1 f; chars "."; f_o2 f; chars "."; f_o3 f; chars "."; f_o4 f]
  | KTimestamp => [chars "["; []; f_stamp f; []; chars "]"]
  | KRequest =>
      [[dquote]; []; f_method f; []; chars " "; []; chars "/"; f_path f; [];
       chars " "; []; chars "HTTP/"; [f_major f]; chars "."; [f_minor f];
       []; [dquote]]
  | KStatus => [[]; f_status f; []]
  | KBytes => [f_bytes f]
  end.

Definition kind_pattern (k : kind) : pattern :=
  match k with
  | KIp => ip_pattern
  | KTimestamp => timestamp_pattern
  | KRequest => request_info_pattern
  | KStatus => status_code_pattern
  | KBytes => bytes_sent_pattern
  end.

Definition token_match (f : fields) (k : kind) : Match :=
  mkMatch (kind_pattern k) [] (token_pieces f k) [].

(** The record of a line of five tokens: what [parse] makes of the matches
    of the five tokens, each taken alone. *)
Definition record_of_fields (parse_date : list ascii -> result datetime)
    (digit_limit : option nat) (f : fields) : result (gmap string pyval) :=
  record_of parse_date digit_limit
    (Some (token_match f KIp)) (Some (token_match f KTimestamp))
    (Some (token_match f KRequest)) (Some (token_match f KStatus))
    (Some (token_match f KBytes)).

(** Helpers to state where [find] lands. *)
Definition shift (P : list ascii) (x : option (list ascii * pieces))
    : option (list ascii * pieces) :=
  match x with
  | Some (pre, r) => Some (P ++ pre, r)
  | None => None
  end.


(** What the piece of an item has to look like. *)
Definition piece_ok (it : item) (p : list ascii) : Prop :=
  match it with
  | Rep k lo hi _ =>
      forallb (in_class k) p = true /\ lo <= length p /\ within hi (length p)
  | Str l => p = l
  | Open _ | Close _ | NotBehind _ | NotAhead _ => p = []
  end.

(** The part of the request pattern after the method group. *)
Definition request_tail : pattern :=
  [Close "method";
   Str (chars " ");
   Open "url"; Str (chars "/"); Rep CNonSpace 1 None true; Close "url";
   Str (chars " ");
   Open "protocol"; Str (chars "HTTP/"); digit1; Str (chars "."); digit1;
   Close "protocol";
   Str [dquote]].

(** [skips its P]: no match starts inside [P], whatever follows. *)
Definition skips (its : pattern) (P : list ascii) : Prop :=
  forall X prev,
    find its prev (P ++ X) = shift P (find its (after prev P) X).

(** [no_start its c]: no match of the pattern starts with the character
    [c]. *)
Definition no_start (its : pattern) (c : ascii) : Prop :=
  forall prev X, match_at its prev (c :: X) = None.



(** ** Concrete lines and records used in the examples *)

(** 2024-03-09 13:55:36 at offset zero. *)
Definition example_timestamp : datetime :=
  mkDatetime 2024 3 9 13 55 36 (Some 0%Z).

(** The record of the documented line. *)
Definition example_record : gmap string pyval :=
  keyed [("ip", PStr (chars "192.168.1.1"));
         ("timestamp", PDatetime example_timestamp);
         ("method", PStr (chars "GET"));
         ("url", PStr (chars "/index.html"));
         ("protocol", PStr (chars "HTTP/1.1"));
         ("status_code", PStr (chars "200"));
         ("bytes_sent", PInt 5432)].

(** A request with a method outside [METHODS]. *)
Definition patch_line : list ascii :=
  chars "10.0.0.1 " ++ quoted (chars "PATCH /x HTTP/1.1") ++ chars " 404 12".

Definition patch_record : gmap string pyval :=
  keyed [("ip", PStr (chars "10.0.0.1"));
         ("timestamp", INVALID);
         ("method", INVALID);
         ("url", PStr (chars "/x"));
         ("protocol", PStr (chars "HTTP/1.1"));
         ("status_code", PStr (chars "404"));
         ("bytes_sent", PInt 12)].

(** A line with an address, a status code and a byte count. *)
Definition status_line : list ascii := chars "192.168.1.1 200 5432".

Definition status_line_match : Match :=
  mkMatch status_code_pattern (chars " ") [[]; chars "200"; []]
    (chars " 5432").

Definition status_line_record : gmap string pyval :=
  keyed [("ip", PStr (chars "192.168.1.1"));
         ("timestamp", INVALID);
         ("method", INVALID);
         ("url", INVALID);
         ("protocol", INVALID);
         ("status_code", PStr (chars "200"));
         ("bytes_sent", PInt 5432)].

(** A dotted quad that is no address. *)
Definition bad_ip_line : list ascii := chars "999.999.999.999 200".

Definition bad_ip_match : Match :=
  mkMatch ip_pattern []
    [chars "999"; chars "."; chars "999"; chars "."; chars "999"; chars ".";
     chars "999"] (chars " 200").

(** A line with a byte count of 0, as in the tests. *)
Definition zero_bytes_line : list ascii :=
  chars "192.168.1.2 - - [09/Mar/2024 13:55:36 +0000] "
  ++ quoted (chars "POST /index.html HTTP/1.1") ++ chars " 510 0".

Definition zero_bytes_record : gmap string pyval :=
  keyed [("ip", PStr (chars "192.168.1.2"));
         ("timestamp", PDatetime example_timestamp);
         ("method", PStr (chars "POST"));
         ("url", PStr (chars "/index.html"));
         ("protocol", PStr (chars "HTTP/1.1"));
         ("status_code", PStr (chars "510"));
         ("bytes_sent", PInt 0)].


(** A line with two quoted requests. *)
Definition two_requests_line : list ascii :=
  quoted (chars "GET /a HTTP/1.1") ++ chars " "
  ++ quoted (chars "POST /b HTTP/1.0").

Definition two_requests_match : Match :=
  mkMatch request_info_pattern []
    [[dquote]; [];
     chars "GET /a HTTP/1.1" ++ [dquote] ++ chars " " ++ [dquote]
       ++ chars "POST";
     []; chars " "; []; chars "/"; chars "b"; []; chars " "; [];
     chars "HTTP/"; chars "1"; chars "."; chars "0"; []; [dquote]] [].

(** A line with two bracket pairs, and the match of the timestamp pattern
    on it. *)
Definition two_pairs_line : list ascii :=
  chars "[09/Mar/2024 13:55:36 +0000] [10/Mar/2024 13:55:36 +0000]".

Definition two_pairs_match : Match :=
  mkMatch timestamp_pattern []
    [chars "["; []; chars "09/Mar/2024 13:55:36 +0000"; []; chars "]"]
    (chars " [10/Mar/2024 13:55:36 +0000]").

(** The tokens in the given order, one space between them. *)
Definition spaced (order : list kind) : list (list ascii * kind) :=
  match order with
  | [] => []
  | k :: order' => ([], k) :: map (fun k' => (chars " ", k')) order'
  end.

(** The field values of the order test. *)
Definition test_fields : fields :=
  mkFields (chars "192") (chars "168") (chars "1") (chars "1")
    (chars "09/Mar/2024 13:55:36 +0000")
    (chars "GET") (chars "index.html") "1" "1"
    (chars "200") (chars "5432").


(** Three orders of the five tokens. *)
Definition status_first : list kind :=
  [KIp; KTimestamp; KRequest; KStatus; KBytes].


Definition shuffled : list kind :=
  [KStatus; KRequest; KBytes; KTimestamp; KIp].

(** A url that holds a dotted quad, and one that holds a bracket. *)
Definition quad_url_fields : fields :=
  mkFields (chars "192") (chars "168") (chars "1") (chars "1")
    (chars "09/Mar/2024 13:55:36 +0000")
    (chars "GET") (chars "10.0.0.7/x") "1" "1"
    (chars "200") (chars "5432").

Definition bracket_url_fields : fields :=
  mkFields (chars "192") (chars "168") (chars "1") (chars "1")
    (chars "09/Mar/2024 13:55:36 +0000")
    (chars "GET") (chars "a[b") "1" "1"
    (chars "200") (chars "5432").

(** The value of one field of a result, if there is one. *)
Definition field_of (r : result (gmap string pyval)) (key : string)
    : option pyval :=
  match r with
  | Ok d => d !! key
  | Raise _ => None
  end.

(** ** Notions used to state further properties of [parse] *)

(** A text the lazy star of the timestamp pattern can hold: no newline and
    no closing bracket. *)
Definition bracket_free (t : list ascii) : bool :=
  forallb (fun c => in_class CAny c && negb (is_char "]" c)) t.

Definition digit_free (s : list ascii) : bool :=
  forallb (fun c => negb (is_digit c)) s.

(** Four texts joined by dots. *)
Definition dotted (a b c d : list ascii) : list ascii :=
  a ++ chars "." ++ b ++ chars "." ++ c ++ chars "." ++ d.

(** [s.join(l)] for [s = '.'] *)
Fixpoint join_dots (l : list (list ascii)) : list ascii :=
  match l with
  | [] => []
  | [p] => p
  | p :: l' => p ++ chars "." ++ join_dots l'
  end.

(** The input positions the five stages capture, stage after stage. *)
Definition captured_by_stages (input : list ascii) : list nat :=
  concat (map (fun n => captured n input) (seq 0 (length patterns))).




(** A run of [n] digits is within the limit of [int]. *)
Definition digit_limit_allows (digit_limit : option nat) (n : nat) : Prop :=
  match digit_limit with
  | Some e => n <= 640 + e
  | None => True
  end.

(** The keys under which the loop of [parse] stores match objects. *)
Definition pattern_keys : list string :=
  ["ip"; "timestamp"; "request_info"; "status_code"; "bytes_sent"].

(** A dictionary that holds no match object under these keys: the values
    there, if any, are [None], booleans, integers, strings or dates. *)
Definition holds_no_match (info : gmap string pyval) : Prop :=
  forall k m, In k pattern_keys -> info !! k <> Some (PMatch m).

(** The seven assignments of [INVALID] of [transform_extracted_info], in
    the order of the source. *)
Definition all_fields_invalid (info : gmap string pyval)
    : gmap string pyval :=
  <["bytes_sent" := INVALID]>
    (<["status_code" := INVALID]>
       (<["protocol" := INVALID]>
          (<["url" := INVALID]>
             (<["method" := INVALID]>
                (<["timestamp" := INVALID]> (<["ip" := INVALID]> info)))))).

(** ** The queries of the validator (validator.py, lines 35-42 and 75) *)

(** The list literal has three entries: the last four string literals stand
    next to each other without a comma, so Python joins them into one
    string. *)
Definition example_loglines : list (list ascii) :=
  [chars "192.168.1.1 - - [09/Mar/2024 13:55:36 +0000] "
     ++ quoted (chars "GET /index.html HTTP/1.1") ++ chars " 200 5432";
   chars "[19/Mar/2023 13:55:36 +0000] 192.168.1.2 - - 200 "
     ++ quoted (chars "POST /index.html HTTP/1.2") ++ chars " 1234";
   (chars "[21/Mar/2025 13:55:36 +0000] 192.168.1.3 - - 200 "
      ++ quoted (chars "PUT /index.html HTTP/1.1"))
   ++ (chars "192.168.1.4 - - 500 "
         ++ quoted (chars "GET /index.html HTTP/1.1"))
   ++ chars "192.168.1.5 - - 200"
   ++ []].

(** [l[i]] on a list: a negative index counts from the end, an index out of
    range raises [IndexError]. *)
Definition py_index {A} (l : list A) (i : Z) : option A :=
  if (0 <=? i)%Z then l !! Z.to_nat i
  else if (- Z.of_nat (length l) <=? i)%Z
       then l !! Z.to_nat (Z.of_nat (length l) + i)
       else None.

(** [example_loglines[self.step % len(example_loglines)]]; [None] stands for
    an exception ([ZeroDivisionError] or [IndexError]).  Python's [%] takes
    the sign of the divisor, as [Z.modulo] does. *)
Definition logline_of_step (step : Z) : option (list ascii) :=
  let n := Z.of_nat (length example_loglines) in
  if (n =? 0)%Z then None else py_index example_loglines (step mod n).

(** ** [process_responses] (api.py, lines 18-26) *)

(** What the function reads of a response: [response.dendrite.status_code],
    an integer or [None], and [response.parsed_logline], a dictionary or
    [None]. *)
Record Response : Type := mkResponse {
  dendrite_status_code : option Z;
  parsed_logline : option (gmap string pyval)
}.

(** The values the function can return: [None] or a list. *)
Inductive api_value : Type :=
| ANone
| AList (outputs : list (option (gmap string pyval))).

(** [outputs.append(x)]: the list grows by [x], and the call itself
    evaluates to [None]. *)
Definition list_append {A} (outputs : list A) (x : A)
    : list A * api_value :=
  (outputs ++ [x], ANone).

(** [response.dendrite.status_code != 200] *)
Definition status_differs_from_200 (response : Response) : bool :=
  match dendrite_status_code response with
  | Some n => negb (n =? 200)%Z
  | None => true
  end.

(** The loop, from the list [outputs] built so far.  A response whose status
    differs from 200 is skipped; at the first other response the function
    returns the value of the call of [append]. *)
Fixpoint process_responses_from
    (outputs : list (option (gmap string pyval)))
    (responses : list Response) : api_value :=
  match responses with
  | [] => AList outputs
  | response :: responses' =>
      if status_differs_from_200 response
      then process_responses_from outputs responses'
      else (list_append outputs (parsed_logline response)).2
  end.

Definition process_responses (responses : list Response) : api_value :=
  process_responses_from [] responses.

(** * Theorems *)

(** ** The matcher *)


Lemma first_of_Some {A} (x y : option A) (r : A) :
  first_of x y = Some r -> x = Some r \/ (x = None /\ y = Some r).
Proof. destruct x; simpl; intros H; [ left | right ]; auto. Qed.

Lemma within_dec hi n :
  can_take hi = true -> within (dec_hi hi) n -> within hi (S n).
Proof. destruct hi as [[|h]|]; simpl; intros; try discriminate; lia. Qed.

Lemma rep_stop_Some {R} (kont : option ascii -> list ascii -> option R)
    lo prev s p r :
  rep_stop kont lo prev s = Some (p, r) ->
  lo = 0 /\ p = [] /\ kont prev s = Some r.
Proof.
  unfold rep_stop. destruct lo; [ | discriminate ].
  destruct (kont prev s); [ | discriminate ].
  intros H. injection H as <- <-. auto.
Qed.

Lemma cons_piece_Some {R} a (x : option (list ascii * R)) p r :
  cons_piece a x = Some (p, r) -> exists p', p = a :: p' /\ x = Some (p', r).
Proof.
  destruct x as [[p' r']|]; simpl; [ | discriminate ].
  intros H. injection H as <- <-. eauto.
Qed.

Lemma rep_eq {R} k g (kont : option ascii -> list ascii -> option R)
    lo hi prev s :
  rep k g kont lo hi prev s =
  if g then first_of (rep_more k g kont lo hi s) (rep_stop kont lo prev s)
  else first_of (rep_stop kont lo prev s) (rep_more k g kont lo hi s).
Proof. destruct s; reflexivity. Qed.

Lemma rep_more_Some {R} k g (kont : option ascii -> list ascii -> option R)
    lo hi s p r :
  rep_more k g kont lo hi s = Some (p, r) ->
  exists a s' p', s = a :: s' /\ p = a :: p' /\ in_class k a = true
    /\ can_take hi = true
    /\ rep k g kont (pred lo) (dec_hi hi) (Some a) s' = Some (p', r).
Proof.
  destruct s as [|a s']; simpl; [ discriminate | ].
  destruct (in_class k a) eqn:Ha; [ | discriminate ].
  destruct (can_take hi) eqn:Hc; [ | discriminate ]. simpl.
  intros Hx. apply cons_piece_Some in Hx. destruct Hx as (p' & -> & Hx).
  exists a, s', p'. auto.
Qed.

(** The two ways a repetition can succeed. *)
Lemma rep_Some {R} k g (kont : option ascii -> list ascii -> option R)
    lo hi prev s p r :
  rep k g kont lo hi prev s = Some (p, r) ->
  (lo = 0 /\ p = [] /\ kont prev s = Some r)
  \/ (exists a s' p', s = a :: s' /\ p = a :: p' /\ in_class k a = true
        /\ can_take hi = true
        /\ rep k g kont (pred lo) (dec_hi hi) (Some a) s' = Some (p', r)).
Proof.
  rewrite rep_eq. intros H.
  destruct g; apply first_of_Some in H; destruct H as [H | [_ H]];
    first [ apply rep_stop_Some in H; left; exact H
          | apply rep_more_Some in H; right; exact H ].
Qed.

Lemma rep_sound {R} k g (kont : option ascii -> list ascii -> option R) :
  forall s lo hi prev p r,
    rep k g kont lo hi prev s = Some (p, r) ->
    exists s', s = p ++ s' /\ kont (after prev p) s' = Some r
               /\ forallb (in_class k) p = true
               /\ lo <= length p /\ within hi (length p).
Proof.
  induction s as [|a s IH]; intros lo hi prev p r H;
    apply rep_Some in H;
    destruct H as [(-> & -> & Hk) | (b & s' & p' & Hs & -> & Ha & Hc & Hr)].
  - exists []. simpl. repeat split; auto. destruct hi; simpl; lia.
  - discriminate.
  - exists (a :: s). simpl. repeat split; auto. destruct hi; simpl; lia.
  - injection Hs as <- <-.
    apply IH in Hr. destruct Hr as (s' & -> & Hk & Hall & Hlo & Hhi).
    exists s'. simpl. rewrite Ha, Hall. repeat split; auto.
    + lia.
    + apply within_dec; assumption.
Qed.

Lemma strip_sound : forall l prev s prev' s',
  strip l prev s = Some (prev', s') -> s = l ++ s' /\ prev' = after prev l.
Proof.
  induction l as [|c l IH]; intros prev s prev' s' H; simpl in H.
  - injection H as <- <-. auto.
  - destruct s as [|a s]; [ discriminate | ].
    destruct (Ascii.eqb c a) eqn:E; [ | discriminate ].
    apply Ascii.eqb_eq in E. subst a.
    apply IH in H. destruct H as [-> ->]. auto.
Qed.

Lemma push_Some p r ps rest :
  push p r = Some (ps, rest) ->
  exists ps', ps = p :: ps' /\ r = Some (ps', rest).
Proof.
  destruct r as [[ps' rest']|]; simpl; intros H; [ | discriminate ].
  injection H as <- <-. eauto.
Qed.

(** A match consumes a prefix of the text, one piece per item. *)
Lemma match_at_sound : forall its prev s ps rest,
  match_at its prev s = Some (ps, rest) ->
  s = concat ps ++ rest /\ length ps = length its.
Proof.
  induction its as [|it its IH]; intros prev s ps rest H; simpl in H.
  - injection H as <- <-. auto.
  - destruct it as [k lo hi g | l | g | g | k | k].
    + destruct (rep k g (match_at its) lo hi prev s) as [[p [ps' rest']]|] eqn:E;
        [ | discriminate ].
      injection H as <- <-.
      apply rep_sound in E. destruct E as (s' & -> & Hk & _).
      apply IH in Hk. destruct Hk as [-> Hlen].
      simpl. rewrite <- app_assoc. auto.
    + destruct (strip l prev s) as [[prev' s']|] eqn:E; [ | discriminate ].
      apply strip_sound in E. destruct E as [-> ->].
      apply push_Some in H. destruct H as (ps' & -> & H).
      apply IH in H. destruct H as [-> Hlen].
      simpl. rewrite <- app_assoc. auto.
    + apply push_Some in H. destruct H as (ps' & -> & H).
      apply IH in H. destruct H as [-> Hlen]. simpl. auto.
    + apply push_Some in H. destruct H as (ps' & -> & H).
      apply IH in H. destruct H as [-> Hlen]. simpl. auto.
    + assert (H' : push [] (match_at its prev s) = Some (ps, rest)).
      { destruct prev as [a|]; [ destruct (in_class k a) | ];
          first [ discriminate | exact H ]. }
      apply push_Some in H'. destruct H' as (ps' & -> & H').
      apply IH in H'. destruct H' as [-> Hlen]. simpl. auto.
    + assert (H' : push [] (match_at its prev s) = Some (ps, rest)).
      { destruct s as [|a s']; [ | destruct (in_class k a) ];
          first [ discriminate | exact H ]. }
      apply push_Some in H'. destruct H' as (ps' & -> & H').
      apply IH in H'. destruct H' as [Hs Hlen]. simpl. auto.
Qed.

(** [find] returns the leftmost start at which the pattern matches. *)
Lemma find_sound : forall its s prev pre ps rest,
  find its prev s = Some (pre, (ps, rest)) ->
  s = pre ++ concat ps ++ rest
  /\ match_at its (after prev pre) (concat ps ++ rest) = Some (ps, rest)
  /\ (forall pre1 c pre2, pre = pre1 ++ c :: pre2 ->
        match_at its (after prev pre1) (c :: pre2 ++ concat ps ++ rest) = None).
Proof.
  induction s as [|a s IH]; intros prev pre ps rest H; simpl in H.
  - destruct (match_at its prev []) as [[ps0 rest0]|] eqn:E; [ | discriminate ].
    injection H as <- <- <-.
    pose proof (match_at_sound _ _ _ _ _ E) as [Hs _].
    simpl. rewrite <- Hs. repeat split; auto.
    intros pre1 c pre2 Hp. destruct pre1; discriminate.
  - destruct (match_at its prev (a :: s)) as [[ps0 rest0]|] eqn:E.
    + injection H as <- <- <-.
      pose proof (match_at_sound _ _ _ _ _ E) as [Hs _].
      simpl. rewrite <- Hs. repeat split; auto.
      intros pre1 c pre2 Hp. destruct pre1; discriminate.
    + destruct (find its (Some a) s) as [[pre' [ps' rest']]|] eqn:F;
        [ | discriminate ].
      injection H as <- <- <-.
      apply IH in F. destruct F as (-> & Hm & Hleft).
      repeat split; auto.
      intros pre1 c pre2 Hp.
      destruct pre1 as [|b pre1]; simpl in Hp; injection Hp as <- ->.
      * simpl. exact E.
      * simpl. apply (Hleft pre1 c pre2). reflexivity.
Qed.


(** [re.search] and [re.sub] use the same match: the text is the part
    before, the matched span and the part after, and the substitution keeps
    the two outer parts. *)
Lemma search_sub its s m :
  re_search its s = Some m ->
  m_re m = its
  /\ s = m_before m ++ group0 m ++ m_after m
  /\ re_sub1 its s = m_before m ++ m_after m.
Proof.
  unfold re_search, re_sub1, group0.
  destruct (find its None s) as [[pre [ps rest]]|] eqn:F; [ | discriminate ].
  intros H. injection H as <-. simpl.
  apply find_sound in F. destruct F as (-> & _). auto.
Qed.

Lemma search_None_sub its s :
  re_search its s = None -> re_sub1 its s = s.
Proof.
  unfold re_search, re_sub1.
  destruct (find its None s) as [[pre [ps rest]]|]; [ discriminate | auto ].
Qed.

(** Every piece of a match has the shape its item asks for. *)
Lemma match_at_pieces : forall its prev s ps rest,
  match_at its prev s = Some (ps, rest) ->
  Forall2 piece_ok its ps.
Proof.
  induction its as [|it its IH]; intros prev s ps rest H; simpl in H.
  - injection H as <- <-. constructor.
  - destruct it as [k lo hi g | l | g | g | k | k].
    + destruct (rep k g (match_at its) lo hi prev s) as [[p [ps' rest']]|] eqn:E;
        [ | discriminate ].
      injection H as <- <-.
      apply rep_sound in E. destruct E as (s' & -> & Hk & Hall & Hlo & Hhi).
      constructor; [ simpl; auto | eapply IH; exact Hk ].
    + destruct (strip l prev s) as [[prev' s']|] eqn:E; [ | discriminate ].
      apply push_Some in H. destruct H as (ps' & -> & H).
      constructor; [ reflexivity | eapply IH; exact H ].
    + apply push_Some in H. destruct H as (ps' & -> & H).
      constructor; [ reflexivity | eapply IH; exact H ].
    + apply push_Some in H. destruct H as (ps' & -> & H).
      constructor; [ reflexivity | eapply IH; exact H ].
    + assert (H' : push [] (match_at its prev s) = Some (ps, rest)).
      { destruct prev as [a|]; [ destruct (in_class k a) | ];
          first [ discriminate | exact H ]. }
      apply push_Some in H'. destruct H' as (ps' & -> & H').
      constructor; [ reflexivity | eapply IH; exact H' ].
    + assert (H' : push [] (match_at its prev s) = Some (ps, rest)).
      { destruct s as [|a s']; [ | destruct (in_class k a) ];
          first [ discriminate | exact H ]. }
      apply push_Some in H'. destruct H' as (ps' & -> & H').
      constructor; [ reflexivity | eapply IH; exact H' ].
Qed.

(** ** Greedy and lazy repetitions *)

Lemma within_S hi n :
  within hi (S n) -> can_take hi = true /\ within (dec_hi hi) n.
Proof. destruct hi as [[|h]|]; simpl; intros; split; auto; lia. Qed.

(** A repetition fails when the continuation fails at every admissible
    split. *)
Lemma rep_None_of {R} k g (kont : option ascii -> list ascii -> option R)
    lo hi prev s :
  (forall p s', s = p ++ s' -> forallb (in_class k) p = true ->
                lo <= length p -> within hi (length p) ->
                kont (after prev p) s' = None) ->
  rep k g kont lo hi prev s = None.
Proof.
  intros H. destruct (rep k g kont lo hi prev s) as [[p r]|] eqn:E;
    [ | reflexivity ].
  apply rep_sound in E. destruct E as (s' & Hs & Hk & Hall & Hlo & Hhi).
  rewrite (H p s' Hs Hall Hlo Hhi) in Hk. discriminate.
Qed.

(** A greedy repetition takes [p] when the continuation succeeds after [p]
    and fails after every longer run. *)
Lemma rep_greedy {R} k (kont : option ascii -> list ascii -> option R) :
  forall p lo hi prev s' r,
    forallb (in_class k) p = true -> lo <= length p ->
    within hi (length p) ->
    kont (after prev p) s' = Some r ->
    (forall p1 s1, s' = p1 ++ s1 -> p1 <> [] ->
                   forallb (in_class k) p1 = true ->
                   within hi (length p + length p1) ->
                   kont (after prev (p ++ p1)) s1 = None) ->
    rep k true kont lo hi prev (p ++ s') = Some (p, r).
Proof.
  induction p as [|a p IH]; intros lo hi prev s' r Hall Hlo Hhi Hk Hlonger.
  - simpl in *. rewrite rep_eq.
    assert (Hmore : rep_more k true kont lo hi s' = None).
    { unfold rep_more. destruct s' as [|a s1]; [ reflexivity | ].
      destruct (in_class k a) eqn:Ha; [ | reflexivity ].
      destruct (can_take hi) eqn:Hc; [ | reflexivity ]. simpl.
      rewrite rep_None_of; [ reflexivity | ].
      intros p2 s2 -> Hp2 _ Hw.
      apply (Hlonger (a :: p2) s2); [ reflexivity | discriminate | | ].
      - simpl. rewrite Ha. exact Hp2.
      - simpl. apply within_dec; assumption. }
    rewrite Hmore. simpl. unfold rep_stop.
    replace lo with 0 by lia. rewrite Hk. reflexivity.
  - simpl in Hall. apply andb_prop in Hall. destruct Hall as [Ha Hall].
    simpl in Hlo, Hhi. apply within_S in Hhi. destruct Hhi as [Hc Hhi].
    simpl app. rewrite rep_eq. unfold rep_more. rewrite Ha, Hc. simpl.
    rewrite (IH (pred lo) (dec_hi hi) (Some a) s' r); auto.
    + lia.
    + intros p1 s1 Hs Hne Hp1 Hw.
      apply (Hlonger p1 s1 Hs Hne Hp1). simpl.
      apply within_dec; assumption.
Qed.

(** A lazy repetition takes [p] when the continuation succeeds after [p]
    and fails after every shorter run. *)
Lemma rep_lazy {R} k (kont : option ascii -> list ascii -> option R) :
  forall p lo hi prev s' r,
    forallb (in_class k) p = true -> lo <= length p ->
    within hi (length p) ->
    kont (after prev p) s' = Some r ->
    (forall p1 p2, p = p1 ++ p2 -> p2 <> [] -> lo <= length p1 ->
                   kont (after prev p1) (p2 ++ s') = None) ->
    rep k false kont lo hi prev (p ++ s') = Some (p, r).
Proof.
  induction p as [|a p IH]; intros lo hi prev s' r Hall Hlo Hhi Hk Hshort.
  - simpl in *. rewrite rep_eq. unfold rep_stop.
    replace lo with 0 by lia. rewrite Hk. reflexivity.
  - simpl in Hall. apply andb_prop in Hall. destruct Hall as [Ha Hall].
    simpl in Hlo, Hhi. apply within_S in Hhi. destruct Hhi as [Hc Hhi].
    simpl app. rewrite rep_eq.
    assert (Hstop : rep_stop kont lo prev (a :: p ++ s') = None).
    { unfold rep_stop. destruct lo; [ | reflexivity ].
      pose proof (Hshort [] (a :: p) eq_refl) as Hs. simpl in Hs.
      rewrite Hs; [ reflexivity | discriminate | lia ]. }
    rewrite Hstop. simpl. unfold rep_more. rewrite Ha, Hc. simpl.
    rewrite (IH (pred lo) (dec_hi hi) (Some a) s' r); auto.
    + lia.
    + intros p1 p2 -> Hne Hl.
      apply (Hshort (a :: p1) p2); [ reflexivity | exact Hne | simpl; lia ].
Qed.

(** ** Building a match item by item *)

Lemma strip_complete : forall l prev s,
  strip l prev (l ++ s) = Some (after prev l, s).
Proof.
  induction l as [|c l IH]; intros prev s; simpl; [ reflexivity | ].
  rewrite Ascii.eqb_refl. apply IH.
Qed.

Lemma match_str its l prev s ps rest :
  match_at its (after prev l) s = Some (ps, rest) ->
  match_at (Str l :: its) prev (l ++ s) = Some (l :: ps, rest).
Proof.
  intros H. cbn [match_at]. rewrite strip_complete, H. reflexivity.
Qed.

Lemma match_open its g prev s ps rest :
  match_at its prev s = Some (ps, rest) ->
  match_at (Open g :: its) prev s = Some ([] :: ps, rest).
Proof. intros H. cbn [match_at]. rewrite H. reflexivity. Qed.

Lemma match_close its g prev s ps rest :
  match_at its prev s = Some (ps, rest) ->
  match_at (Close g :: its) prev s = Some ([] :: ps, rest).
Proof. intros H. cbn [match_at]. rewrite H. reflexivity. Qed.

Lemma match_rep_greedy its k lo hi p prev s ps rest :
  forallb (in_class k) p = true -> lo <= length p ->
  within hi (length p) ->
  match_at its (after prev p) s = Some (ps, rest) ->
  (forall p1 s1, s = p1 ++ s1 -> p1 <> [] ->
                 forallb (in_class k) p1 = true ->
                 within hi (length p + length p1) ->
                 match_at its (after prev (p ++ p1)) s1 = None) ->
  match_at (Rep k lo hi true :: its) prev (p ++ s) = Some (p :: ps, rest).
Proof.
  intros Hall Hlo Hhi Hk Hlonger. cbn [match_at].
  rewrite (rep_greedy k (match_at its) p lo hi prev s (ps, rest)); auto.
Qed.

(** The usual case: the character after the run is not in the class. *)
Lemma match_rep_greedy_stop its k lo hi p prev s ps rest :
  forallb (in_class k) p = true -> lo <= length p ->
  within hi (length p) ->
  (forall c, head s = Some c -> in_class k c = false) ->
  match_at its (after prev p) s = Some (ps, rest) ->
  match_at (Rep k lo hi true :: its) prev (p ++ s) = Some (p :: ps, rest).
Proof.
  intros Hall Hlo Hhi Hnext Hk.
  apply match_rep_greedy; auto.
  intros [|c p1] s1 -> Hne Hp1 _; [ congruence | ].
  simpl in Hp1. rewrite (Hnext c eq_refl) in Hp1. discriminate.
Qed.

Lemma match_rep_lazy its k lo hi p prev s ps rest :
  forallb (in_class k) p = true -> lo <= length p ->
  within hi (length p) ->
  match_at its (after prev p) s = Some (ps, rest) ->
  (forall p1 p2, p = p1 ++ p2 -> p2 <> [] -> lo <= length p1 ->
                 match_at its (after prev p1) (p2 ++ s) = None) ->
  match_at (Rep k lo hi false :: its) prev (p ++ s) = Some (p :: ps, rest).
Proof.
  intros Hall Hlo Hhi Hk Hshort. cbn [match_at].
  rewrite (rep_lazy k (match_at its) p lo hi prev s (ps, rest)); auto.
Qed.

(** ** The first character of a match *)

Lemma match_rep_first its k lo hi g prev s r :
  match_at (Rep k (S lo) hi g :: its) prev s = Some r ->
  exists c s', s = c :: s' /\ in_class k c = true.
Proof.
  cbn [match_at]. intros H.
  destruct (rep k g (match_at its) (S lo) hi prev s) as [[p [ps rest]]|] eqn:E;
    [ | discriminate ].
  apply rep_sound in E. destruct E as (s' & -> & _ & Hall & Hlo & _).
  destruct p as [|c p]; simpl in Hlo; [ lia | ].
  simpl in Hall. apply andb_prop in Hall. destruct Hall as [Hc _].
  exists c, (p ++ s'). auto.
Qed.

Lemma match_str_first its c l prev s r :
  match_at (Str (c :: l) :: its) prev s = Some r ->
  exists s', s = c :: s'.
Proof.
  cbn [match_at]. intros H.
  destruct (strip (c :: l) prev s) as [[prev' s']|] eqn:E; [ | discriminate ].
  apply strip_sound in E. destruct E as [-> _]. simpl. eauto.
Qed.

(** ** Skipping a prefix in which no match starts *)

Lemma find_skip its : forall P prev X,
  (forall pre1 c pre2, P = pre1 ++ c :: pre2 ->
     match_at its (after prev pre1) (c :: pre2 ++ X) = None) ->
  find its prev (P ++ X) = shift P (find its (after prev P) X).
Proof.
  induction P as [|a P IH]; intros prev X H.
  - simpl. destruct (find its prev X) as [[pre r]|]; reflexivity.
  - simpl app. cbn [find].
    pose proof (H [] a P eq_refl) as H0. simpl in H0. rewrite H0.
    rewrite (IH (Some a) X).
    + change (after prev (a :: P)) with (after (Some a) P).
      destruct (find its (after (Some a) P) X) as [[pre r]|]; reflexivity.
    + intros pre1 c pre2 ->. apply (H (a :: pre1) c pre2). reflexivity.
Qed.


(** ** Barriers: a match never reads past a character it cannot accept *)






(** ** Patterns without a look-behind do not depend on the character before *)




(** ** The loop of [parse] *)

Lemma extract_step_eq info w key pat :
  extract_step (info, w) (key, pat)
  = (put key (re_search pat w) info, re_sub1 pat w).
Proof.
  unfold extract_step, put.
  destruct (re_search pat w) eqn:E; [ reflexivity | ].
  rewrite (search_None_sub _ _ E). reflexivity.
Qed.

Lemma working_text_0 input : working_text 0 input = input.
Proof. reflexivity. Qed.

Lemma working_text_S n input key pat :
  patterns !! n = Some (key, pat) ->
  working_text (S n) input = re_sub1 pat (working_text n input).
Proof.
  intros H. unfold working_text.
  rewrite (take_S_r _ _ _ H). unfold extract_from.
  rewrite fold_left_app. simpl.
  destruct (fold_left extract_step (take n patterns) (∅, input)) as [i w].
  rewrite extract_step_eq. reflexivity.
Qed.

Lemma extract_eq input :
  extract input
  = (info_of (stage_match 0 input) (stage_match 1 input)
       (stage_match 2 input) (stage_match 3 input) (stage_match 4 input),
     working_text 5 input).
Proof.
  change (stage_match 0 input)
    with (re_search ip_pattern (working_text 0 input)).
  change (stage_match 1 input)
    with (re_search timestamp_pattern (working_text 1 input)).
  change (stage_match 2 input)
    with (re_search request_info_pattern (working_text 2 input)).
  change (stage_match 3 input)
    with (re_search status_code_pattern (working_text 3 input)).
  change (stage_match 4 input)
    with (re_search bytes_sent_pattern (working_text 4 input)).
  rewrite (working_text_S 4 input _ _ eq_refl),
    (working_text_S 3 input _ _ eq_refl),
    (working_text_S 2 input _ _ eq_refl),
    (working_text_S 1 input _ _ eq_refl),
    (working_text_S 0 input _ _ eq_refl), working_text_0.
  unfold extract, extract_from, patterns. cbn [fold_left].
  rewrite !extract_step_eq. reflexivity.
Qed.

(** ** [transform_extracted_info], step by step *)

Lemma ip_address_cases s :
  ip_address s = Ok tt \/ ip_address s = Raise ValueError.
Proof.
  unfold ip_address.
  destruct (split_dots s) as [|a [|b [|c [|d [|? ?]]]]]; auto.
  destruct (octet_ok a && octet_ok b && octet_ok c && octet_ok d); auto.
Qed.

Lemma transform_ip_eq info o :
  info !! "ip" = PMatch <$> o ->
  transform_ip info = Ok (<["ip" := ip_field o]> info).
Proof.
  intros H. unfold transform_ip, ip_field. rewrite H.
  destruct o as [m|]; simpl; [ | reflexivity ].
  destruct (ip_address_cases (group0 m)) as [-> | ->]; reflexivity.
Qed.

Lemma transform_timestamp_eq parse_date info o :
  info !! "timestamp" = PMatch <$> o ->
  transform_timestamp parse_date info
  = (v ← timestamp_field parse_date o; Ok (<["timestamp" := v]> info)).
Proof.
  intros H. unfold transform_timestamp, timestamp_field. rewrite H.
  destruct o as [m|]; simpl; [ | reflexivity ].
  destruct (parse_date (group m "timestamp")) as [d|[]]; reflexivity.
Qed.

Lemma transform_request_eq info o :
  info !! "request_info" = PMatch <$> o ->
  transform_request info
  = Ok (match o with
        | Some _ =>
            delete "request_info"
              (<["protocol" := named_field "protocol" o]>
                 (<["url" := named_field "url" o]>
                    (<["method" := method_field o]>
                       (<["method" := named_field "method" o]> info))))
        | None =>
            <["protocol" := INVALID]>
              (<["url" := INVALID]> (<["method" := INVALID]> info))
        end).
Proof.
  intros H. unfold transform_request, method_field, named_field. rewrite H.
  destruct o as [m|]; [ | reflexivity ].
  cbn [fmap option_fmap option_map truthy_get truthy py_group mbind
       result_bind].
  destruct (existsb (text_eqb (group m "method")) METHODS);
    [ | reflexivity ].
  rewrite insert_insert_eq. reflexivity.
Qed.

Lemma transform_status_code_eq info o :
  info !! "status_code" = PMatch <$> o ->
  transform_status_code info
  = Ok (<["status_code" := status_code_field o]> info).
Proof.
  intros H. unfold transform_status_code, status_code_field. rewrite H.
  destruct o as [m|]; reflexivity.
Qed.

Lemma transform_bytes_sent_eq digit_limit info o :
  info !! "bytes_sent" = PMatch <$> o ->
  transform_bytes_sent digit_limit info
  = (n ← bytes_sent_field digit_limit o; Ok (<["bytes_sent" := n]> info)).
Proof.
  intros H. unfold transform_bytes_sent, bytes_sent_field. rewrite H.
  destruct o as [m|]; reflexivity.
Qed.

Lemma transform_info_of parse_date digit_limit o0 o1 o2 o3 o4 :
  transform_extracted_info parse_date digit_limit (info_of o0 o1 o2 o3 o4)
  = record_of parse_date digit_limit o0 o1 o2 o3 o4.
Proof.
  unfold transform_extracted_info, record_of.
  rewrite (transform_ip_eq _ o0)
    by (destruct o0, o1, o2, o3, o4; reflexivity).
  cbn [mbind result_bind].
  rewrite (transform_timestamp_eq _ _ o1)
    by (destruct o0, o1, o2, o3, o4; reflexivity).
  destruct (timestamp_field parse_date o1) as [ts|e]; [ | reflexivity ].
  cbn [mbind result_bind].
  rewrite (transform_request_eq _ o2)
    by (destruct o0, o1, o2, o3, o4; reflexivity).
  cbn [mbind result_bind].
  rewrite (transform_status_code_eq _ o3)
    by (destruct o0, o1, o2, o3, o4; reflexivity).
  cbn [mbind result_bind].
  rewrite (transform_bytes_sent_eq _ _ o4)
    by (destruct o0, o1, o2, o3, o4; reflexivity).
  destruct (bytes_sent_field digit_limit o4) as [b|e]; [ | reflexivity ].
  cbn [mbind result_bind]. f_equal.
  destruct o0, o1, o2, o3, o4; reflexivity.
Qed.

(** [parse] as a function of the five matches: the dictionary it returns, or
    the exception it lets through. *)
Lemma parse_record parse_date digit_limit input :
  parse parse_date digit_limit input
  = record_of parse_date digit_limit
      (stage_match 0 input) (stage_match 1 input) (stage_match 2 input)
      (stage_match 3 input) (stage_match 4 input).
Proof.
  unfold parse. rewrite extract_eq. apply transform_info_of.
Qed.

Lemma parse_Ok parse_date digit_limit input r :
  parse parse_date digit_limit input = Ok r ->
  exists ts b,
    timestamp_field parse_date (stage_match 1 input) = Ok ts
    /\ bytes_sent_field digit_limit (stage_match 4 input) = Ok b
    /\ r = keyed [("ip", ip_field (stage_match 0 input));
                  ("timestamp", ts);
                  ("method", method_field (stage_match 2 input));
                  ("url", named_field "url" (stage_match 2 input));
                  ("protocol", named_field "protocol" (stage_match 2 input));
                  ("status_code", status_code_field (stage_match 3 input));
                  ("bytes_sent", b)].
Proof.
  rewrite parse_record. unfold record_of.
  destruct (timestamp_field parse_date (stage_match 1 input)) as [ts|e];
    [ | discriminate ].
  destruct (bytes_sent_field digit_limit (stage_match 4 input)) as [b|e];
    [ | discriminate ].
  cbn [mbind result_bind]. intros H. injection H as <-. eauto.
Qed.

(** An exception of the date parser other than [AttributeError] leaves
    [parse]. *)
Lemma parse_lets_date_error_through parse_date digit_limit input m e :
  stage_match 1 input = Some m ->
  parse_date (group m "timestamp") = Raise e ->
  e <> AttributeError ->
  parse parse_date digit_limit input = Raise e.
Proof.
  intros Hm He Hne. rewrite parse_record. unfold record_of.
  rewrite Hm. unfold timestamp_field. rewrite He.
  destruct e; [ congruence | reflexivity | reflexivity ].
Qed.

Lemma existsb_text_eqb x l : existsb (text_eqb x) l = true <-> In x l.
Proof.
  rewrite existsb_exists. unfold text_eqb. split.
  - intros (y & Hy & E). apply bool_decide_eq_true_1 in E. subst. exact Hy.
  - intros H. exists x. split; [ exact H | apply bool_decide_eq_true_2; auto ].
Qed.

Lemma after_None_last (l : list ascii) : after None l = last l.
Proof.
  assert (G : forall (l : list ascii) prev,
            after prev l = match last l with Some c => Some c | None => prev end).
  { induction l0 as [|a l0 IH]; intros prev; [ reflexivity | ].
    change (after prev (a :: l0)) with (after (Some a) l0). rewrite IH.
    destruct l0 as [|b l0]; [ reflexivity | ].
    change (last (a :: b :: l0)) with (last (b :: l0)).
    destruct (last (b :: l0)) eqn:E; [ reflexivity | ].
    apply last_None in E. discriminate. }
  rewrite G. destruct (last l); reflexivity.
Qed.

(** What a match of the status pattern looks like. *)
Lemma status_match_shape prev s ps rest :
  match_at status_code_pattern prev s = Some (ps, rest) ->
  exists a b c,
    ps = [[]; [a; b; c]; []] /\ s = a :: b :: c :: rest
    /\ is_digit a = true /\ is_digit b = true /\ is_digit c = true
    /\ blocks_status prev = false /\ blocks_status (head rest) = false.
Proof.
  unfold status_code_pattern. cbn [match_at]. intros H.
  assert (Hp : blocks_status prev = false
               /\ push [] (match rep CDigit true
                              (match_at [NotAhead CDigitOrDot]) 3 (Some 3) prev s
                            with
                            | Some (p, (ps0, rest0)) => Some (p :: ps0, rest0)
                            | None => None
                            end) = Some (ps, rest)).
  { destruct prev as [x|]; cbn [blocks_status]; [ | auto ].
    destruct (in_class CDigitOrDot x); [ discriminate | auto ]. }
  destruct Hp as [Hprev Hp].
  apply push_Some in Hp. destruct Hp as (ps' & -> & Hp).
  destruct (rep CDigit true (match_at [NotAhead CDigitOrDot]) 3 (Some 3) prev s)
    as [[p [ps0 rest0]]|] eqn:E; [ | discriminate ].
  injection Hp as <- <-.
  apply rep_sound in E. destruct E as (s' & -> & Hk & Hall & Hlo & Hhi).
  simpl in Hhi.
  destruct p as [|a [|b [|c [|d p]]]]; simpl in Hlo, Hhi; try lia.
  simpl in Hall. apply andb_prop in Hall. destruct Hall as [Ha Hall].
  apply andb_prop in Hall. destruct Hall as [Hb Hall].
  apply andb_prop in Hall. destruct Hall as [Hc _].
  cbn [match_at] in Hk.
  assert (Hn : blocks_status (head s') = false
               /\ push [] (Some ([], s')) = Some (ps0, rest0)).
  { destruct s' as [|y s']; cbn [blocks_status head]; [ auto | ].
    destruct (in_class CDigitOrDot y); [ discriminate | auto ]. }
  destruct Hn as [Hnext Hn]. simpl in Hn. injection Hn as <- <-.
  exists a, b, c. repeat split; auto.
Qed.

(** ** The claims *)

(** C7: [parse] applied to the empty string returns a dictionary that holds
    exactly the seven fields, each equal to [INVALID]; no exception is
    raised, whatever the date parser and the digit limit are. *)
Theorem parse_empty_all_invalid :
  forall (parse_date : list ascii -> result datetime)
         (digit_limit : option nat),
    parse parse_date digit_limit [] = Ok all_invalid
    /\ dom all_invalid = list_to_set total_valid_keys
    /\ (forall k, In k total_valid_keys -> all_invalid !! k = Some INVALID).
Proof.
  intros pd lim. split; [ reflexivity | split ].
  - reflexivity.
  - intros k Hk. simpl in Hk.
    repeat (destruct Hk as [<- | Hk]; [ reflexivity | ]).
    destruct Hk.
Qed.

(** Evaluates the five matches of a concrete line. *)
Ltac run_stages :=
  rewrite parse_record;
  repeat match goal with
    | |- context [stage_match ?n ?l] =>
        let o := fresh "o" in
        set (o := stage_match n l); vm_compute in o; subst o
    end;
  unfold record_of, timestamp_field;
  repeat match goal with
    | |- context [group ?m ?g] =>
        let t := fresh "t" in
        set (t := group m g); vm_compute in t; subst t
    end.

(** C2: on the line of the documentation, [parse] returns ip 192.168.1.1,
    the date-time the date parser gives for the bracket interior (2024-03-09
    13:55:36 at offset zero), method GET, url /index.html, protocol HTTP/1.1,
    the status code as the string 200 and the byte count as the integer
    5432. *)
Theorem parse_example_line :
  forall (parse_date : list ascii -> result datetime)
         (digit_limit : option nat),
    parse_date (chars "09/Mar/2024 13:55:36 +0000") = Ok example_timestamp ->
    parse parse_date digit_limit example_line = Ok example_record.
Proof.
  intros pd lim H. run_stages. vm_compute in H. rewrite H.
  destruct lim; reflexivity.
Qed.

Lemma parse_example_line_witness :
  clf_parse_date (chars "09/Mar/2024 13:55:36 +0000") = Ok example_timestamp
  /\ parse clf_parse_date default_limit example_line = Ok example_record.
Proof.
  split.
  - reflexivity.
  - apply (parse_example_line clf_parse_date default_limit). reflexivity.
Defined.

(** C1: the date parser rejects the interior of the bracket pair of the
    line [[hello]] with a [ValueError]; [parse] does not turn it into
    [INVALID]: the exception leaves [parse]. *)
Theorem parse_raises_on_bad_timestamp :
  forall (parse_date : list ascii -> result datetime)
         (digit_limit : option nat),
    parse_date (chars "hello") = Raise ValueError ->
    parse parse_date digit_limit (chars "[hello]") = Raise ValueError.
Proof.
  intros pd lim H. run_stages. vm_compute in H. rewrite H. reflexivity.
Qed.

Lemma parse_raises_on_bad_timestamp_witness :
  clf_parse_date (chars "hello") = Raise ValueError
  /\ parse clf_parse_date default_limit (chars "[hello]") = Raise ValueError.
Proof.
  split.
  - reflexivity.
  - apply (parse_raises_on_bad_timestamp clf_parse_date default_limit).
    reflexivity.
Defined.

(** With the default limit of [int], a run of 4301 digits is a second way
    out of [parse]: the [ValueError] of the conversion is not caught
    either. *)
Example parse_raises_on_long_digit_run :
  forall parse_date : list ascii -> result datetime,
    parse parse_date default_limit (repeat "1"%char 4301) = Raise ValueError.
Proof. intros pd. vm_compute. reflexivity. Qed.

(** The sibling path: a dotted quad that is no address raises the same
    [ValueError] inside [transform_extracted_info], and there it is caught. *)
Example bad_ip_is_caught :
  forall (parse_date : list ascii -> result datetime)
         (digit_limit : option nat),
    ip_address (chars "999.999.999.999") = Raise ValueError
    /\ parse parse_date digit_limit (chars "999.999.999.999") = Ok all_invalid
    /\ working_text 1 (chars "999.999.999.999") = [].
Proof. intros pd lim. repeat split; reflexivity. Qed.

(** C3: method, url and protocol go together.  When [parse] returns, either
    the request pattern matches nowhere in the working text and the three
    fields are [INVALID], or it matches and url and protocol hold the
    captured texts, while method holds the captured text if it is one of GET,
    POST, PUT, DELETE and [INVALID] if it is not. *)
Theorem request_fields_as_a_unit :
  forall (parse_date : list ascii -> result datetime)
         (digit_limit : option nat) (input : list ascii)
         (r : gmap string pyval),
    parse parse_date digit_limit input = Ok r ->
    request_unit input r.
Proof.
  intros pd lim input r H.
  apply parse_Ok in H. destruct H as (ts & b & _ & _ & ->).
  unfold request_unit.
  change (re_search request_info_pattern (working_text 2 input))
    with (stage_match 2 input).
  destruct (stage_match 2 input) as [m|].
  - split; [ reflexivity | split; [ reflexivity | ] ].
    change (keyed _ !! "method") with (Some (method_field (Some m))).
    unfold method_field. split; intros Hin.
    + apply existsb_text_eqb in Hin. rewrite Hin. reflexivity.
    + destruct (existsb (text_eqb (group m "method")) METHODS) eqn:E;
        [ | reflexivity ].
      apply existsb_text_eqb in E. contradiction.
  - repeat split; reflexivity.
Qed.

Lemma request_fields_as_a_unit_witness :
  parse clf_parse_date default_limit patch_line = Ok patch_record
  /\ request_unit patch_line patch_record.
Proof.
  split.
  - reflexivity.
  - apply (request_fields_as_a_unit clf_parse_date default_limit).
    reflexivity.
Defined.

(** C5: when the status pattern matches in the working text of its stage,
    the captured text is a run of exactly three digits of that text, the
    character before it (if any) and the character after it (if any) are
    neither a digit nor a dot, and this run is the value of the field
    [status_code].  So three digits out of a longer digit run, or an octet
    next to a dot, are never the status code. *)
Theorem status_code_only_isolated :
  forall (parse_date : list ascii -> result datetime)
         (digit_limit : option nat) (input : list ascii)
         (m : Match) (r : gmap string pyval),
    re_search status_code_pattern (working_text 3 input) = Some m ->
    parse parse_date digit_limit input = Ok r ->
    status_isolated input m r.
Proof.
  intros pd lim input m r Hm H.
  apply parse_Ok in H. destruct H as (ts & b & _ & _ & ->).
  change (stage_match 3 input)
    with (re_search status_code_pattern (working_text 3 input)).
  rewrite Hm.
  pose proof (search_sub _ _ _ Hm) as (Hre & Hw & _).
  unfold re_search in Hm.
  destruct (find status_code_pattern None (working_text 3 input))
    as [[pre [ps rest]]|] eqn:F; [ | discriminate ].
  injection Hm as <-. simpl in Hw |- *.
  apply find_sound in F. destruct F as (_ & Hmatch & _).
  apply status_match_shape in Hmatch.
  destruct Hmatch as (a & b0 & c & -> & Hs & Ha & Hb & Hc & Hprev & Hnext).
  rewrite after_None_last in Hprev.
  exists a, b0, c. unfold group0 in *. simpl in *.
  repeat split; auto.
Qed.

Lemma status_code_only_isolated_witness :
  re_search status_code_pattern (working_text 3 status_line)
    = Some status_line_match
  /\ parse clf_parse_date default_limit status_line = Ok status_line_record
  /\ status_isolated status_line status_line_match status_line_record.
Proof.
  split; [ reflexivity | split; [ reflexivity | ] ].
  apply (status_code_only_isolated clf_parse_date default_limit);
    reflexivity.
Defined.

(** Digits out of a longer run and octets of an unmatched dotted text are
    left alone by the status stage. *)
Example status_code_skips_long_runs_and_octets :
  re_search status_code_pattern (chars "12345 1.234.5 6789") = None
  /\ re_search status_code_pattern (chars "12345 1.234.5 678x")
     = Some (mkMatch status_code_pattern (chars "12345 1.234.5 ")
               [[]; chars "678"; []] (chars "x")).
Proof. split; reflexivity. Qed.

(** Adjacency is read in the working text: the ip stage takes at most
    three digits of a last octet, and three digits it leaves behind are on
    their own by the time the status stage runs. *)
Example status_code_after_long_octet :
  working_text 3 (chars "10.0.0.123456")
    = chars "456"
  /\ option_map group0 (stage_match 3 (chars "10.0.0.123456"))
     = Some (chars "456").
Proof. split; reflexivity. Qed.

(** ** Removal of the matched span *)

Lemma stage_cases n input :
  (exists m, stage_match n input = Some m
             /\ working_text n input = m_before m ++ group0 m ++ m_after m
             /\ working_text (S n) input = m_before m ++ m_after m)
  \/ (stage_match n input = None
      /\ working_text (S n) input = working_text n input).
Proof.
  unfold stage_match.
  destruct (patterns !! n) as [[key pat]|] eqn:E.
  - rewrite (working_text_S n input key pat E).
    destruct (re_search pat (working_text n input)) as [m|] eqn:F.
    + left. exists m. apply search_sub in F. destruct F as (_ & Hw & Hs).
      auto.
    + right. split; [ reflexivity | apply search_None_sub; exact F ].
  - right. split; [ reflexivity | ].
    apply lookup_ge_None in E. unfold working_text.
    rewrite !take_ge by lia. reflexivity.
Qed.

Lemma seq_positions (l pre : list ascii) :
  Forall2 (fun i c => (pre ++ l) !! i = Some c)
    (seq (length pre) (length l)) l.
Proof.
  revert pre. induction l as [|a l IH]; intros pre; simpl; constructor.
  - apply list_lookup_middle. reflexivity.
  - specialize (IH (pre ++ [a])).
    rewrite <- app_assoc, length_app in IH. simpl in IH.
    replace (length pre + 1) with (S (length pre)) in IH by lia. exact IH.
Qed.

Lemma cut_app {A} (b g a : list A) :
  cut (length b) (length g) (b ++ g ++ a) = b ++ a.
Proof.
  unfold cut. rewrite take_app_length.
  rewrite <- drop_drop, drop_app_length, drop_app_length. reflexivity.
Qed.

Lemma span_app {A} (b g a : list A) :
  span (length b) (length g) (b ++ g ++ a) = g.
Proof. unfold span. rewrite drop_app_length, take_app_length. reflexivity. Qed.

(** [origins] tells the truth: the character of the working text at each
    place is the character of the input at the recorded position. *)
Lemma origins_text n input :
  Forall2 (fun i c => input !! i = Some c)
    (origins n input) (working_text n input).
Proof.
  induction n as [|n IH].
  - rewrite working_text_0. apply (seq_positions input []).
  - simpl origins.
    destruct (stage_cases n input) as [(m & -> & Hw & ->) | (-> & ->)];
      [ | exact IH ].
    rewrite <- (cut_app (m_before m) (group0 m) (m_after m)), <- Hw.
    unfold cut. apply Forall2_app;
      [ apply Forall2_take | apply Forall2_drop ]; exact IH.
Qed.

Lemma origins_shrink n input :
  origins (S n) input `sublist_of` origins n input.
Proof.
  simpl. destruct (stage_match n input) as [m|]; [ | reflexivity ].
  unfold cut.
  rewrite <- (take_drop (length (m_before m)) (origins n input)) at 3.
  apply sublist_app; [ reflexivity | ].
  rewrite <- drop_drop. apply sublist_drop.
Qed.

Lemma origins_NoDup n input : NoDup (origins n input).
Proof.
  induction n as [|n IH].
  - apply NoDup_seq.
  - eapply sublist_NoDup; [ exact IH | apply origins_shrink ].
Qed.

Lemma origins_shrink_le n n' input :
  n <= n' -> origins n' input `sublist_of` origins n input.
Proof.
  induction 1 as [|n' _ IH]; [ reflexivity | ].
  etransitivity; [ apply origins_shrink | exact IH ].
Qed.

Lemma captured_sublist n input :
  captured n input `sublist_of` origins n input.
Proof.
  unfold captured. destruct (stage_match n input) as [m|].
  - unfold span. etransitivity; [ apply sublist_take | apply sublist_drop ].
  - apply sublist_nil_l.
Qed.

Lemma captured_gone n input i :
  i ∈ captured n input -> i ∉ origins (S n) input.
Proof.
  unfold captured. simpl.
  destruct (stage_match n input) as [m|]; [ | intros H; inversion H ].
  pose proof (origins_NoDup n input) as Hnd.
  set (l := origins n input) in *.
  set (b := length (m_before m)). set (g := length (group0 m)).
  rewrite <- (take_drop b l) in Hnd.
  rewrite <- (take_drop g (drop b l)) in Hnd.
  rewrite drop_drop in Hnd.
  apply NoDup_app in Hnd. destruct Hnd as (_ & Hdis1 & Hnd).
  apply NoDup_app in Hnd. destruct Hnd as (_ & Hdis2 & _).
  unfold span, cut. intros Hi Hin.
  apply elem_of_app in Hin. destruct Hin as [Hin | Hin].
  - apply (Hdis1 i Hin). apply elem_of_app. left. exact Hi.
  - apply (Hdis2 i Hi Hin).
Qed.

(** C9: when the pattern of a stage matches, the working text is the text
    before the match, the matched span and the text after it, and the next
    stage works on the outer two parts only.  Nothing here looks at the
    validity of the matched text.  Counted in positions of the input, the
    characters of the span are the ones [captured] lists, and no later stage
    captures any of them. *)
Theorem matched_span_is_removed :
  forall (input : list ascii) (n : nat) (m : Match),
    stage_match n input = Some m ->
    working_text n input = m_before m ++ group0 m ++ m_after m
    /\ working_text (S n) input = m_before m ++ m_after m
    /\ Forall2 (fun i c => input !! i = Some c) (captured n input) (group0 m)
    /\ (forall n' i, n < n' -> i ∈ captured n input ->
          i ∉ captured n' input).
Proof.
  intros input n m Hm.
  destruct (stage_cases n input) as [(m' & Hm' & Hw & Hs) | (Hnone & _)];
    [ | congruence ].
  assert (m' = m) by congruence. subst m'.
  repeat split; auto.
  - unfold captured, span. rewrite Hm.
    pose proof (Forall2_take _ _ _ (length (group0 m))
                  (Forall2_drop _ _ _ (length (m_before m))
                     (origins_text n input))) as HF.
    rewrite Hw, drop_app_length, take_app_length in HF. exact HF.
  - intros n' i Hlt Hi Hi'.
    apply (captured_gone n input i Hi).
    apply (elem_of_sublist (origins n' input)).
    + apply (elem_of_sublist (captured n' input)); [ exact Hi' | ].
      apply captured_sublist.
    + apply origins_shrink_le. lia.
Qed.

Lemma matched_span_is_removed_witness :
  stage_match 0 bad_ip_line = Some bad_ip_match
  /\ (working_text 0 bad_ip_line
        = m_before bad_ip_match ++ group0 bad_ip_match ++ m_after bad_ip_match
      /\ working_text 1 bad_ip_line
           = m_before bad_ip_match ++ m_after bad_ip_match
      /\ Forall2 (fun i c => bad_ip_line !! i = Some c)
           (captured 0 bad_ip_line) (group0 bad_ip_match)
      /\ (forall n' i, 0 < n' -> i ∈ captured 0 bad_ip_line ->
            i ∉ captured n' bad_ip_line)).
Proof.
  split.
  - reflexivity.
  - apply (matched_span_is_removed bad_ip_line 0 bad_ip_match). reflexivity.
Defined.

(** The dotted quad 999.999.999.999 is no address: the field is [INVALID],
    the span is gone all the same, and the later stages see only what is
    left. *)
Example bad_ip_span_is_removed :
  forall (parse_date : list ascii -> result datetime)
         (digit_limit : option nat),
    parse parse_date digit_limit bad_ip_line
    = Ok (keyed [("ip", INVALID); ("timestamp", INVALID);
                 ("method", INVALID); ("url", INVALID);
                 ("protocol", INVALID); ("status_code", PStr (chars "200"));
                 ("bytes_sent", INVALID)])
    /\ working_text 1 bad_ip_line = chars " 200"
    /\ captured 0 bad_ip_line = seq 0 15
    /\ captured 3 bad_ip_line = [16; 17; 18].
Proof. intros pd lim. repeat split; reflexivity. Qed.

(** ** The reward *)

Lemma count_key_eq response n key :
  count_key response n key
  = n + (if code_filled response key then 1 else 0).
Proof.
  unfold count_key, code_filled.
  destruct (response !! key) as [v|]; simpl; [ | lia ].
  destruct (truthy v); simpl; [ | lia ].
  destruct (not_in_invalid_or_empty v); lia.
Qed.

Lemma fold_count_key response keys n :
  fold_left (count_key response) keys n
  = n + length (List.filter (code_filled response) keys).
Proof.
  revert n. induction keys as [|k keys IH]; intros n; simpl; [ lia | ].
  rewrite IH, count_key_eq.
  destruct (code_filled response k); simpl; lia.
Qed.

(** [reward] counts the fields that are true as a condition and differ from
    [INVALID]. *)
Lemma valid_keys_of_eq response :
  valid_keys_of response
  = length (List.filter (code_filled response) total_valid_keys).
Proof. unfold valid_keys_of. rewrite fold_count_key. reflexivity. Qed.

Lemma code_filled_spec_filled response key :
  code_filled response key = true -> spec_filled response key = true.
Proof.
  unfold code_filled, spec_filled, not_in_invalid_or_empty.
  destruct (response !! key) as [v|]; [ | discriminate ].
  destruct (truthy v); simpl; [ | discriminate ].
  destruct (eq_str v INVALID_text), (eq_str v []); simpl; auto.
Qed.

(** The two counts differ only on a present value that is false as a
    condition without being the empty string: [None], [False] or [0]. *)
Lemma spec_filled_code_filled response key :
  (forall v, response !! key = Some v ->
             truthy v = true \/ eq_str v [] = true) ->
  spec_filled response key = code_filled response key.
Proof.
  unfold code_filled, spec_filled, not_in_invalid_or_empty. intros H.
  destruct (response !! key) as [v|]; [ | reflexivity ].
  destruct (H v eq_refl) as [-> | E].
  - simpl. destruct (eq_str v INVALID_text), (eq_str v []); reflexivity.
  - rewrite E. destruct (truthy v), (eq_str v INVALID_text); reflexivity.
Qed.

Lemma filter_length_le {A} (f : A -> bool) (l : list A) :
  length (List.filter f l) <= length l.
Proof. induction l as [|a l IH]; simpl; [ lia | destruct (f a); simpl; lia ]. Qed.

(** C10: the count of filled keys lies between zero and the number of keys
    of [ParsedWebserverLogLine], seven, so the reward lies in the closed
    interval from 0 to 1, for every response dictionary. *)
Theorem reward_in_unit_interval :
  forall (query : list ascii) (response : gmap string pyval),
    valid_keys_of response <= length total_valid_keys
    /\ length total_valid_keys = 7
    /\ Qle 0 (reward query response)
    /\ Qle (reward query response) 1.
Proof.
  intros query response.
  assert (H : valid_keys_of response <= length total_valid_keys).
  { rewrite valid_keys_of_eq. apply filter_length_le. }
  split; [ exact H | split; [ reflexivity | ] ].
  unfold reward, Qle. simpl in *. lia.
Qed.

(** C6: on the record [parse] returns for a line whose byte count is 0, all
    seven fields are present, none is [INVALID] and none is the empty
    string, so the score in the words of the specification is 7/7; [reward]
    tests the truth value of the field first, the integer 0 is false, and
    the score it returns is 6/7. *)
Theorem reward_drops_zero_byte_count :
  parse clf_parse_date default_limit zero_bytes_line = Ok zero_bytes_record
  /\ spec_filled_count zero_bytes_record = 7
  /\ valid_keys_of zero_bytes_record = 6
  /\ reward zero_bytes_line zero_bytes_record = (6 # 7)%Q
  /\ spec_score zero_bytes_record = (7 # 7)%Q.
Proof. repeat split; reflexivity. Qed.

(** Apart from such values the two scores agree. *)
Lemma reward_agrees_on_true_values query response :
  (forall k v, In k total_valid_keys -> response !! k = Some v ->
               truthy v = true \/ eq_str v [] = true) ->
  reward query response = spec_score response.
Proof.
  intros H. unfold reward, spec_score, spec_filled_count.
  rewrite valid_keys_of_eq. do 3 f_equal.
  induction total_valid_keys as [|k keys IH]; [ reflexivity | ]. simpl.
  rewrite (spec_filled_code_filled response k)
    by (intros v Hv; apply (H k v); [ left; reflexivity | exact Hv ]).
  rewrite IH by (intros k' v Hk Hv; apply (H k' v); [ right | ]; assumption).
  reflexivity.
Qed.

(** ** Characters *)

Ltac split_andb :=
  repeat match goal with
    | H : _ && _ = true |- _ => apply andb_prop in H; destruct H
    end.







(** ** Each pattern matches its own token as a whole *)


(** The timestamp pattern: the lazy star stops at the first closing
    bracket, whatever follows. *)
Lemma timestamp_match t prev post :
  forallb (in_class CAny) t = true ->
  (forall c, In c t -> is_char "]" c = false) ->
  match_at timestamp_pattern prev (chars "[" ++ t ++ chars "]" ++ post)
  = Some ([chars "["; []; t; []; chars "]"], post).
Proof.
  intros Hany Hclose. unfold timestamp_pattern.
  apply match_str, match_open, match_rep_lazy.
  - exact Hany.
  - lia.
  - exact I.
  - apply match_close, match_str. reflexivity.
  - intros p1 [|c p2] Hsplit Hne _; [ congruence | ].
    assert (Hc : is_char "]" c = false).
    { apply Hclose. rewrite Hsplit. apply in_or_app. right. left.
      reflexivity. }
    cbn [match_at push]. simpl app. cbn [strip chars list_ascii_of_string].
    unfold is_char in Hc. rewrite Hc. reflexivity.
Qed.




(** ** The request pattern *)

Ltac invert_pieces H :=
  repeat match type of H with
    | Forall2 _ (_ :: _) _ =>
        let x := fresh "x" in let xs := fresh "xs" in
        let Hx := fresh "Hx" in let Hxs := fresh "Hxs" in
        let E := fresh "E" in
        apply Forall2_cons_inv_l in H;
        destruct H as (x & xs & Hx & Hxs & E);
        simpl in Hx; subst; rename Hxs into H
    | Forall2 _ [] _ => apply Forall2_nil_inv_l in H; subst
    end.

(** What the tail of the request pattern needs: a space, a slash, and a
    double quote further on. *)
Lemma request_tail_needs prev s r :
  match_at request_tail prev s = Some r ->
  (exists s', s = " "%char :: "/"%char :: s') /\ In dquote s.
Proof.
  destruct r as [ps rest]. intros H.
  pose proof (match_at_sound _ _ _ _ _ H) as [Hs _].
  apply match_at_pieces in H. unfold request_tail in H.
  invert_pieces H.
  simpl. split.
  - eexists. reflexivity.
  - right. right. repeat (rewrite !in_app_iff; simpl). tauto.
Qed.

Lemma nonspace_not_space c :
  in_class CNonSpace c = true -> c <> " "%char.
Proof. intros H ->. discriminate H. Qed.

Lemma digit_not c (d : ascii) :
  is_digit c = true -> is_digit d = false -> c <> d.
Proof. intros H H' ->. congruence. Qed.

(** The tail of the request pattern on the tail of a request. *)
Lemma request_tail_match U a b post prev :
  forallb (in_class CNonSpace) U = true -> 1 <= length U ->
  is_digit a = true -> is_digit b = true ->
  match_at request_tail prev
    (chars " " ++ chars "/" ++ U ++ chars " " ++ chars "HTTP/" ++ [a]
     ++ chars "." ++ [b] ++ [dquote] ++ post)
  = Some ([[]; chars " "; []; chars "/"; U; []; chars " "; [];
           chars "HTTP/"; [a]; chars "."; [b]; []; [dquote]], post).
Proof.
  intros HU HlU Ha Hb. unfold request_tail, digit1.
  apply match_close, match_str, match_open, match_str.
  apply match_rep_greedy_stop; [ exact HU | exact HlU | exact I | | ].
  { intros c Hc. simpl in Hc. injection Hc as <-. reflexivity. }
  apply match_close, match_str, match_open, match_str.
  apply match_rep_greedy_stop;
    [ simpl; rewrite Ha; reflexivity | simpl; lia | simpl; lia | | ].
  { intros c Hc. simpl in Hc. injection Hc as <-. reflexivity. }
  apply match_str.
  apply match_rep_greedy_stop;
    [ simpl; rewrite Hb; reflexivity | simpl; lia | simpl; lia | | ].
  { intros c Hc. simpl in Hc. injection Hc as <-. reflexivity. }
  apply match_close, match_str. reflexivity.
Qed.

(** It matches nowhere further to the right: the method group cannot be
    longer. *)
Lemma request_tail_fails U a b post :
  forallb (in_class CNonSpace) U = true ->
  is_digit a = true -> is_digit b = true ->
  ~ In dquote post ->
  forall p1 s1 prev,
    chars " " ++ chars "/" ++ U ++ chars " " ++ chars "HTTP/" ++ [a]
    ++ chars "." ++ [b] ++ [dquote] ++ post = p1 ++ s1 ->
    p1 <> [] ->
    match_at request_tail prev s1 = None.
Proof.
  intros HU Ha Hb Hpost p1 s1 prev Hsplit Hne.
  destruct (match_at request_tail prev s1) as [r|] eqn:E; [ exfalso | auto ].
  apply request_tail_needs in E. destruct E as [(s' & ->) Hq].
  destruct p1 as [|c0 p1]; [ congruence | ].
  simpl in Hsplit. injection Hsplit as <- Hsplit.
  change ("/"%char :: U ++ " "%char :: "H"%char :: "T"%char :: "T"%char
          :: "P"%char :: "/"%char :: a :: "."%char :: b :: dquote :: post)
    with (("/"%char :: U) ++ " "%char :: "H"%char :: "T"%char :: "T"%char
          :: "P"%char :: "/"%char :: a :: "."%char :: b :: dquote :: post)
    in Hsplit.
  assert (HW : forall c, In c ("/"%char :: U) -> c <> " "%char).
  { intros c [<- | Hc]; [ discriminate | ].
    apply nonspace_not_space.
    exact (proj1 (forallb_forall _ _) HU c Hc). }
  apply app_eq_app in Hsplit. destruct Hsplit as (l & [[HWl Hl] | [Hp Hl]]).
  - destruct l as [|c l]; simpl in Hl.
    + discriminate Hl.
    + injection Hl as <- _. apply (HW " "%char); [ | reflexivity ].
      rewrite HWl. apply in_or_app. right. left. reflexivity.
  - pose proof (digit_not a " "%char Ha eq_refl) as Ha'.
    pose proof (digit_not b " "%char Hb eq_refl) as Hb'.
    do 10 (destruct l as [|? l]; simpl in Hl;
           [ injection Hl; intros; subst; congruence
           | injection Hl as <- Hl ]).
    apply Hpost. rewrite Hl. apply in_or_app. right. exact Hq.
Qed.

(** The request pattern on a quoted request: the method group takes
    everything up to the last place where the tail still matches. *)
Lemma request_match X U a b post prev :
  forallb (in_class CAny) X = true ->
  forallb (in_class CNonSpace) U = true -> 1 <= length U ->
  is_digit a = true -> is_digit b = true ->
  ~ In dquote post ->
  match_at request_info_pattern prev
    ([dquote] ++ X ++ chars " " ++ chars "/" ++ U ++ chars " "
     ++ chars "HTTP/" ++ [a] ++ chars "." ++ [b] ++ [dquote] ++ post)
  = Some ([[dquote]; []; X; []; chars " "; []; chars "/"; U; []; chars " ";
           []; chars "HTTP/"; [a]; chars "."; [b]; []; [dquote]], post).
Proof.
  intros HX HU HlU Ha Hb Hpost.
  change request_info_pattern
    with (Str [dquote] :: Open "method" :: Rep CAny 0 None true
          :: request_tail).
  apply match_str, match_open, match_rep_greedy.
  - exact HX.
  - lia.
  - exact I.
  - apply request_tail_match; assumption.
  - intros p1 s1 Hsplit Hne _ _.
    apply (request_tail_fails U a b post HU Ha Hb Hpost p1 s1 _ Hsplit Hne).
Qed.


(** ** Texts in which no match starts *)

Lemma find_None_intro its : forall s prev,
  (forall s1 s2, s = s1 ++ s2 -> match_at its (after prev s1) s2 = None) ->
  find its prev s = None.
Proof.
  induction s as [|a s IH]; intros prev H; cbn [find].
  - pose proof (H [] [] eq_refl) as H0. simpl in H0. rewrite H0. reflexivity.
  - pose proof (H [] (a :: s) eq_refl) as H0. simpl in H0. rewrite H0.
    rewrite (IH (Some a)); [ reflexivity | ].
    intros s1 s2 ->. apply (H (a :: s1) s2). reflexivity.
Qed.

Lemma skips_nil its : skips its [].
Proof.
  intros X prev. simpl. destruct (find its prev X) as [[pre r]|]; reflexivity.
Qed.


Lemma no_start_skips its P : Forall (no_start its) P -> skips its P.
Proof.
  intros H X prev. apply find_skip.
  intros pre1 c pre2 ->.
  rewrite Forall_app, Forall_cons in H. destruct H as (_ & Hc & _).
  apply Hc.
Qed.


(** Characters that start no match. *)

Lemma ip_no_start c : is_digit c = false -> no_start ip_pattern c.
Proof.
  intros Hc prev X.
  destruct (match_at ip_pattern prev (c :: X)) as [r|] eqn:E; [ | auto ].
  apply match_rep_first in E. destruct E as (c' & s' & Hs & Hd).
  injection Hs as <- _. simpl in Hd. congruence.
Qed.

Lemma bytes_no_start c : is_digit c = false -> no_start bytes_sent_pattern c.
Proof.
  intros Hc prev X.
  destruct (match_at bytes_sent_pattern prev (c :: X)) as [r|] eqn:E;
    [ | auto ].
  apply match_rep_first in E. destruct E as (c' & s' & Hs & Hd).
  injection Hs as <- _. simpl in Hd. congruence.
Qed.

Lemma status_no_start c : is_digit c = false -> no_start status_code_pattern c.
Proof.
  intros Hc prev X.
  destruct (match_at status_code_pattern prev (c :: X)) as [[ps rest]|] eqn:E;
    [ | auto ].
  apply status_match_shape in E.
  destruct E as (a & b & c' & _ & Hs & Ha & _).
  injection Hs as <- _. congruence.
Qed.

Lemma timestamp_no_start c :
  is_char "[" c = false -> no_start timestamp_pattern c.
Proof.
  intros Hc prev X.
  destruct (match_at timestamp_pattern prev (c :: X)) as [r|] eqn:E;
    [ | auto ].
  apply match_str_first in E. destruct E as (s' & Hs).
  injection Hs as -> _. discriminate Hc.
Qed.






(** ** Lines of tokens and gaps *)
























(** ** Repeated tokens *)

Lemma stage_match_inv n input m :
  stage_match n input = Some m ->
  (exists key, patterns !! n = Some (key, m_re m))
  /\ match_at (m_re m) (after None (m_before m)) (group0 m ++ m_after m)
     = Some (m_pieces m, m_after m)
  /\ leftmost m.
Proof.
  unfold stage_match.
  destruct (patterns !! n) as [[key pat]|] eqn:E; [ | discriminate ].
  unfold re_search.
  destruct (find pat None (working_text n input)) as [[pre [ps rest]]|] eqn:F;
    [ | discriminate ].
  intros H. injection H as <-. simpl.
  apply find_sound in F. destruct F as (_ & Hm & Hleft).
  split; [ eauto | split; [ exact Hm | exact Hleft ] ].
Qed.

(** C8, as stated, fails: the occurrences that remain are inspected.  On a
    line with two bracket pairs the timestamp pattern takes the first pair,
    positions 0 to 27; the second pair stays in the working text, the later
    stages search it, and the byte-count pattern captures the digits 10 at
    positions 30 and 31, inside the second pair. *)
Lemma second_bracket_pair_is_inspected :
  stage_match 1 two_pairs_line = Some two_pairs_match
  /\ captured 1 two_pairs_line = seq 0 28
  /\ working_text 2 two_pairs_line = chars " [10/Mar/2024 13:55:36 +0000]"
  /\ captured 4 two_pairs_line = [30; 31]
  /\ parse clf_parse_date default_limit two_pairs_line
     = Ok (keyed [("ip", INVALID);
                  ("timestamp", PDatetime example_timestamp);
                  ("method", INVALID); ("url", INVALID);
                  ("protocol", INVALID); ("status_code", INVALID);
                  ("bytes_sent", PInt 10)]).
Proof. repeat split; reflexivity. Qed.

(** C8, amended: for every input and every stage whose pattern matches, the
    match used for the field is the leftmost match of the pattern in the
    working text of that stage: the pattern matches at no position further
    to the left.  Only the span of that match leaves the working text; the
    text before and after it, later occurrences included, stays, and it is
    the text the next stage searches.  For the timestamp stage: when the
    working text from the start of the match on reads an opening bracket, a
    text [t] without newline and without closing bracket, a closing bracket
    and a rest, the timestamp text is [t] and the rest stays.  The fields
    of the result are computed from these matches. *)
Theorem leftmost_match_is_used :
  forall (parse_date : list ascii -> result datetime)
         (digit_limit : option nat) (input : list ascii) (n : nat)
         (m : Match),
    stage_match n input = Some m ->
    leftmost m
    /\ working_text n input = m_before m ++ group0 m ++ m_after m
    /\ working_text (S n) input = m_before m ++ m_after m
    /\ (forall key pat, patterns !! S n = Some (key, pat) ->
          stage_match (S n) input = re_search pat (m_before m ++ m_after m))
    /\ (n = 1 -> first_pair_read m)
    /\ parse parse_date digit_limit input
       = record_of parse_date digit_limit
           (stage_match 0 input) (stage_match 1 input) (stage_match 2 input)
           (stage_match 3 input) (stage_match 4 input).
Proof.
  intros pd lim input n m Hm.
  destruct (stage_match_inv n input m Hm) as ((key & Hpat) & Hat & Hleft).
  destruct (stage_cases n input) as [(m' & Hm' & Hw & Hs) | (Hnone & _)];
    [ | congruence ].
  assert (m' = m) by congruence. subst m'.
  split; [ exact Hleft | split; [ exact Hw | split; [ exact Hs | ] ] ].
  split; [ | split; [ | apply parse_record ] ].
  - intros key' pat' Hp. unfold stage_match. rewrite Hp, Hs. reflexivity.
  - intros -> t post Ht Hany Hclose.
    injection Hpat as _ Hre.
    rewrite Ht, <- Hre, (timestamp_match t _ post Hany Hclose) in Hat.
    injection Hat as Hps Hrest. unfold group.
    rewrite <- Hre, <- Hps. simpl. rewrite app_nil_r. auto.
Qed.

Lemma leftmost_match_is_used_witness :
  stage_match 1 two_pairs_line = Some two_pairs_match
  /\ leftmost two_pairs_match
  /\ working_text 2 two_pairs_line = chars " [10/Mar/2024 13:55:36 +0000]"
  /\ first_pair_read two_pairs_match.
Proof.
  split; [ reflexivity | ].
  destruct (leftmost_match_is_used clf_parse_date default_limit
              two_pairs_line 1 two_pairs_match eq_refl)
    as (H1 & _ & H2 & _ & H3 & _).
  split; [ exact H1 | split; [ exact H2 | exact (H3 eq_refl) ] ].
Defined.

(** The request pattern.  Its method group is a greedy star, where the
    group of the timestamp pattern is lazy: when the text from the start of
    the match on ends in a request tail with no double quote behind it, the
    match runs to that tail, over any quoted request in between. *)
Lemma request_match_reads_last_tail input m :
  stage_match 2 input = Some m -> last_tail_read m.
Proof.
  intros Hm X U a b post Ht HX HU HlU Ha Hb Hpost.
  destruct (stage_match_inv 2 input m Hm) as ((key & Hpat) & Hat & _).
  injection Hpat as _ Hre.
  rewrite Ht, <- Hre,
    (request_match X U a b post _ HX HU HlU Ha Hb Hpost) in Hat.
  injection Hat as Hps Hrest. unfold group.
  rewrite <- Hre, <- Hps. simpl. rewrite !app_nil_r. auto.
Qed.

(** Of two quoted request triples the first alone gives GET, /a and
    HTTP/1.1; on the line with both, url and protocol are those of the
    second one and the method is [INVALID]. *)
Example second_request_triple_is_used :
  parse clf_parse_date default_limit (quoted (chars "GET /a HTTP/1.1"))
    = Ok (keyed [("ip", INVALID); ("timestamp", INVALID);
                 ("method", PStr (chars "GET")); ("url", PStr (chars "/a"));
                 ("protocol", PStr (chars "HTTP/1.1"));
                 ("status_code", INVALID); ("bytes_sent", INVALID)])
  /\ parse clf_parse_date default_limit two_requests_line
    = Ok (keyed [("ip", INVALID); ("timestamp", INVALID);
                 ("method", INVALID); ("url", PStr (chars "/b"));
                 ("protocol", PStr (chars "HTTP/1.0"));
                 ("status_code", INVALID); ("bytes_sent", INVALID)])
  /\ stage_match 2 two_requests_line = Some two_requests_match.
Proof. repeat split; reflexivity. Qed.

(** With two bracket pairs the timestamp is read from the first; the second
    stays in the working text, and here its digits become the byte count. *)
Example second_bracket_pair_stays :
  forall (parse_date : list ascii -> result datetime)
         (digit_limit : option nat) (d : datetime),
    parse_date (chars "09/Mar/2024 13:55:36 +0000") = Ok d ->
    parse parse_date digit_limit
      (chars "[09/Mar/2024 13:55:36 +0000] [10/Mar/2024 13:55:36 +0000]")
    = Ok (keyed [("ip", INVALID); ("timestamp", PDatetime d);
                 ("method", INVALID); ("url", INVALID);
                 ("protocol", INVALID); ("status_code", INVALID);
                 ("bytes_sent", PInt 10)]).
Proof.
  intros pd lim d H. run_stages. vm_compute in H. rewrite H.
  destruct lim; reflexivity.
Qed.

(** ** The order of the tokens *)





(** The record of the test's tokens, written out. *)
Example record_of_test_fields :
  line test_fields (spaced shuffled) []
    = chars "200 " ++ quoted (chars "GET /index.html HTTP/1.1")
      ++ chars " 5432 [09/Mar/2024 13:55:36 +0000] 192.168.1.1"
  /\ record_of_fields clf_parse_date default_limit test_fields
     = Ok example_record.
Proof. split; reflexivity. Qed.

(** Each condition of [independent] is needed.  A dotted quad in the url is
    taken for the address when the request comes first; an opening bracket
    in the url starts the timestamp match when the request comes first, so
    that the text handed to the date parser changes with the order. *)
Example order_matters_for_quad_in_url :
  well_formed quad_url_fields = true
  /\ field_of (parse clf_parse_date default_limit
                 (line quad_url_fields (spaced status_first) [])) "ip"
     = Some (PStr (chars "192.168.1.1"))
  /\ field_of (parse clf_parse_date default_limit
                 (line quad_url_fields (spaced shuffled) [])) "ip"
     = Some (PStr (chars "10.0.0.7")).
Proof. repeat split; reflexivity. Qed.

Example order_matters_for_bracket_in_url :
  well_formed bracket_url_fields = true
  /\ named_field "timestamp"
       (stage_match 1 (line bracket_url_fields (spaced status_first) []))
     = PStr (chars "09/Mar/2024 13:55:36 +0000")
  /\ named_field "timestamp"
       (stage_match 1 (line bracket_url_fields (spaced shuffled) []))
     = PStr (chars "b HTTP/1.1" ++ dquote
               :: chars " 5432 [09/Mar/2024 13:55:36 +0000").
Proof. repeat split; reflexivity. Qed.

(** * Further properties of the code *)

(** ** What is left of the line at each stage *)

Lemma stage_match_text n input m :
  stage_match n input = Some m ->
  working_text n input = m_before m ++ group0 m ++ m_after m.
Proof.
  intros Hm.
  destruct (stage_cases n input) as [(m' & Hm' & Hw & _) | (Hnone & _)];
    congruence.
Qed.

(** The working text only loses characters. *)
Lemma working_text_forallb (f : ascii -> bool) n input :
  forallb f input = true -> forallb f (working_text n input) = true.
Proof.
  intros H. induction n as [|n IH]; [ exact H | ].
  destruct (stage_cases n input) as [(m & _ & Hw & ->) | (_ & ->)];
    [ | exact IH ].
  rewrite Hw, !forallb_app in IH. rewrite forallb_app.
  apply andb_prop in IH. destruct IH as [Hb IH].
  apply andb_prop in IH. destruct IH as [_ Ha].
  rewrite Hb, Ha. reflexivity.
Qed.

Lemma working_text_length n input :
  length (working_text n input) <= length input.
Proof.
  induction n as [|n IH]; [ reflexivity | ].
  destruct (stage_cases n input) as [(m & _ & Hw & ->) | (_ & ->)];
    [ | exact IH ].
  rewrite Hw in IH. rewrite !length_app in *. lia.
Qed.

Lemma stage_match_length n input m :
  stage_match n input = Some m -> length (group0 m) <= length input.
Proof.
  intros Hm. pose proof (working_text_length n input) as H.
  rewrite (stage_match_text n input m Hm), !length_app in H. lia.
Qed.

(** The pieces of the match of a stage have the shapes its pattern asks
    for. *)
Lemma stage_match_pieces n input m key pat :
  patterns !! n = Some (key, pat) ->
  stage_match n input = Some m ->
  m_re m = pat /\ Forall2 piece_ok pat (m_pieces m).
Proof.
  intros Hp Hm.
  destruct (stage_match_inv n input m Hm) as ((key' & Hpat) & Hat & _).
  assert (E : m_re m = pat) by congruence.
  split; [ exact E | ]. rewrite <- E.
  eapply match_at_pieces. exact Hat.
Qed.

Lemma stage_match_None n input key pat :
  patterns !! n = Some (key, pat) ->
  find pat None (working_text n input) = None ->
  stage_match n input = None.
Proof.
  intros Hp Hf. unfold stage_match, re_search. rewrite Hp, Hf. reflexivity.
Qed.

Lemma stage_find n input key pat pre ps rest :
  patterns !! n = Some (key, pat) ->
  find pat None (working_text n input) = Some (pre, (ps, rest)) ->
  stage_match n input = Some (mkMatch pat pre ps rest)
  /\ working_text (S n) input = pre ++ rest.
Proof.
  intros Hp Hf. split.
  - unfold stage_match, re_search. rewrite Hp, Hf. reflexivity.
  - rewrite (working_text_S n input key pat Hp). unfold re_sub1.
    rewrite Hf. reflexivity.
Qed.

(** ** Where [find] lands *)

Lemma find_here its prev s r :
  match_at its prev s = Some r -> find its prev s = Some ([], r).
Proof. intros H. destruct s; cbn [find]; rewrite H; reflexivity. Qed.


(** A pattern that cannot match the empty text and cannot start at any
    character of [s] matches nowhere in [s]. *)
Lemma find_no_start its s prev :
  (forall p, match_at its p [] = None) ->
  Forall (no_start its) s ->
  find its prev s = None.
Proof.
  intros Hnil Hs. apply find_None_intro. intros s1 s2 ->.
  destruct s2 as [|c s2]; [ apply Hnil | ].
  rewrite Forall_app, Forall_cons in Hs. destruct Hs as (_ & Hc & _).
  apply Hc.
Qed.

(** A pattern whose matches all hold a character outside [f] matches
    nowhere in a text made of characters of [f]. *)
Lemma find_needs (f : ascii -> bool) its s prev :
  (forall p s' r, match_at its p s' = Some r ->
                  exists c, In c s' /\ f c = false) ->
  forallb f s = true ->
  find its prev s = None.
Proof.
  intros Hneeds Hs. apply find_None_intro. intros s1 s2 ->.
  destruct (match_at its (after prev s1) s2) as [r|] eqn:E; [ | reflexivity ].
  apply Hneeds in E. destruct E as (c & Hc & Hf).
  rewrite forallb_forall in Hs.
  rewrite (Hs c) in Hf; [ discriminate | ].
  apply in_or_app. right. exact Hc.
Qed.

Lemma forallb_Forall_imp {A} (f : A -> bool) (P : A -> Prop) (l : list A) :
  (forall x, f x = true -> P x) -> forallb f l = true -> Forall P l.
Proof.
  intros H Hl. apply Forall_forall. intros x Hx. apply H.
  rewrite forallb_forall in Hl. apply Hl. apply list_elem_of_In. exact Hx.
Qed.

(** ** The keys of the result *)

(** X1: whenever [parse] returns, the dictionary has exactly the seven keys
    of [ParsedWebserverLogLine]; the key [request_info], under which the
    loop stores the request match, is never among them. *)
Theorem parse_returns_the_seven_keys :
  forall (parse_date : list ascii -> result datetime)
         (digit_limit : option nat) (input : list ascii)
         (r : gmap string pyval),
    parse parse_date digit_limit input = Ok r ->
    dom r = list_to_set total_valid_keys
    /\ r !! "request_info" = None
    /\ (forall k, In k total_valid_keys -> exists v, r !! k = Some v).
Proof.
  intros pd lim input r H.
  apply parse_Ok in H. destruct H as (ts & b & _ & _ & ->).
  split; [ | split ].
  - unfold keyed. rewrite dom_list_to_map_L. reflexivity.
  - reflexivity.
  - intros k Hk. simpl in Hk.
    repeat (destruct Hk as [<- | Hk]; [ eexists; reflexivity | ]).
    destruct Hk.
Qed.

Lemma parse_returns_the_seven_keys_witness :
  dom example_record = list_to_set total_valid_keys
  /\ example_record !! "request_info" = None
  /\ (forall k, In k total_valid_keys ->
        exists v, example_record !! k = Some v).
Proof.
  apply (parse_returns_the_seven_keys clf_parse_date default_limit
           example_line example_record).
  reflexivity.
Defined.

(** ** The exceptions [parse] lets through *)

Lemma bytes_match_digits input m :
  stage_match 4 input = Some m ->
  forallb is_digit (group0 m) = true /\ 1 <= length (group0 m).
Proof.
  intros Hm.
  destruct (stage_match_pieces 4 input m _ _ eq_refl Hm) as [_ H].
  unfold bytes_sent_pattern in H. invert_pieces H.
  unfold group0. rewrite E. simpl. rewrite app_nil_r.
  destruct Hx as (Hd & Hl & _). auto.
Qed.

Lemma py_int_digits digit_limit s :
  forallb is_digit s = true -> 1 <= length s ->
  py_int digit_limit s
  = match digit_limit with
    | Some e => if 640 + e <? length s then Raise ValueError
                else Ok (PInt (decimal s))
    | None => Ok (PInt (decimal s))
    end.
Proof.
  intros Hd Hl. unfold py_int. rewrite Hd.
  destruct (Nat.leb_spec 1 (length s)); [ reflexivity | lia ].
Qed.

Lemma bytes_sent_field_cases digit_limit input :
  match stage_match 4 input with
  | Some m =>
      (digit_limit_allows digit_limit (length (group0 m))
       /\ bytes_sent_field digit_limit (stage_match 4 input)
          = Ok (PInt (decimal (group0 m))))
      \/ ((exists e, digit_limit = Some e /\ 640 + e < length (group0 m))
          /\ bytes_sent_field digit_limit (stage_match 4 input)
             = Raise ValueError)
  | None => bytes_sent_field digit_limit (stage_match 4 input) = Ok INVALID
  end.
Proof.
  destruct (stage_match 4 input) as [m|] eqn:Hm; [ | reflexivity ].
  destruct (bytes_match_digits input m Hm) as [Hd Hl].
  unfold bytes_sent_field. rewrite (py_int_digits _ _ Hd Hl).
  destruct digit_limit as [e|];
    [ | left; split; [ exact I | reflexivity ] ].
  cbn [digit_limit_allows].
  destruct (Nat.ltb_spec (640 + e) (length (group0 m))).
  - right. split; [ exists e; split; [ reflexivity | assumption ] | reflexivity ].
  - left. split; [ assumption | reflexivity ].
Qed.

Lemma timestamp_field_cases parse_date (o : option Match) :
  (exists v, timestamp_field parse_date o = Ok v)
  \/ (exists m e, o = Some m /\ parse_date (group m "timestamp") = Raise e
                  /\ e <> AttributeError
                  /\ timestamp_field parse_date o = Raise e).
Proof.
  destruct o as [m|]; [ | left; eexists; reflexivity ].
  unfold timestamp_field.
  destruct (parse_date (group m "timestamp")) as [d|[]] eqn:E;
    first [ left; eexists; reflexivity
          | right; eexists; eexists;
            split; [ reflexivity
                   | split; [ exact E
                            | split; [ discriminate | reflexivity ] ] ] ].
Qed.

(** X2: the exceptions of [parse].  [parse] raises [e] exactly when either
    the timestamp pattern matched and the date parser raises [e] on the
    text between the brackets, [e] not being [AttributeError], or the date
    step raised nothing, the digit run found by the byte-count pattern is
    longer than the limit of [int], and [e] is [ValueError].  No other step
    lets an exception through. *)
Theorem parse_raises_iff :
  forall (parse_date : list ascii -> result datetime)
         (digit_limit : option nat) (input : list ascii) (e : exn),
    parse parse_date digit_limit input = Raise e <->
    (exists m, stage_match 1 input = Some m
               /\ parse_date (group m "timestamp") = Raise e
               /\ e <> AttributeError)
    \/ (e = ValueError
        /\ (forall m e', stage_match 1 input = Some m ->
              parse_date (group m "timestamp") = Raise e' ->
              e' = AttributeError)
        /\ exists m n, stage_match 4 input = Some m
                       /\ digit_limit = Some n
                       /\ 640 + n < length (group0 m)).
Proof.
  intros pd lim input e. rewrite parse_record. unfold record_of.
  pose proof (bytes_sent_field_cases lim input) as Hb.
  destruct (timestamp_field_cases pd (stage_match 1 input))
    as [(v & Hv) | (m & e' & Hm & He' & Hne & Hv)]; rewrite Hv;
    cbn [mbind result_bind].
  - assert (Hcaught : forall m e', stage_match 1 input = Some m ->
              pd (group m "timestamp") = Raise e' -> e' = AttributeError).
    { intros m e' Hm He'. rewrite Hm in Hv. unfold timestamp_field in Hv.
      rewrite He' in Hv. destruct e'; [ reflexivity | discriminate Hv .. ]. }
    destruct (stage_match 4 input) as [m4|] eqn:H4.
    + destruct Hb as [(Hfit & ->) | ((n & -> & Hlong) & ->)];
        cbn [mbind result_bind]; split.
      * discriminate.
      * intros [(m & Hm & He & Hne) | (_ & _ & m' & n & Hm' & -> & Hlong)].
        -- rewrite (Hcaught m e Hm He) in Hne. congruence.
        -- injection Hm' as <-. simpl in Hfit. lia.
      * intros H. injection H as <-. right.
        split; [ reflexivity | split; [ exact Hcaught | ] ].
        exists m4, n. auto.
      * intros [(m & Hm & He & Hne) | (-> & _)]; [ | reflexivity ].
        rewrite (Hcaught m e Hm He) in Hne. congruence.
    + rewrite Hb. cbn [mbind result_bind]. split; [ discriminate | ].
      intros [(m & Hm & He & Hne) | (_ & _ & m' & n & Hm' & _)];
        [ | discriminate Hm' ].
      rewrite (Hcaught m e Hm He) in Hne. congruence.
  - split.
    + intros H. injection H as <-. left. exists m. auto.
    + intros [(m' & Hm' & He & _) | (_ & Hcaught & _)].
      * rewrite Hm in Hm'. injection Hm' as <-. congruence.
      * rewrite (Hcaught m e' Hm He') in Hne. congruence.
Qed.

(** X3: on a line that holds no opening bracket and is no longer than the
    digit limit of [int] (640 characters are within every limit), [parse]
    raises nothing, whatever the date parser is: it returns a record, and
    the timestamp of the record is [INVALID]. *)
Theorem parse_returns_without_bracket :
  forall (parse_date : list ascii -> result datetime)
         (digit_limit : option nat) (input : list ascii),
    forallb (fun c => negb (is_char "[" c)) input = true ->
    digit_limit_allows digit_limit (length input) ->
    exists r, parse parse_date digit_limit input = Ok r
              /\ r !! "timestamp" = Some INVALID.
Proof.
  intros pd lim input Hno Hfit. rewrite parse_record. unfold record_of.
  assert (H1 : stage_match 1 input = None).
  { apply (stage_match_None 1 input _ _ eq_refl).
    apply find_no_start; [ reflexivity | ].
    apply (forallb_Forall_imp (fun c => negb (is_char "[" c))).
    - intros c Hc. apply timestamp_no_start, negb_true_iff, Hc.
    - apply working_text_forallb. exact Hno. }
  rewrite H1. cbn [timestamp_field mbind result_bind].
  pose proof (bytes_sent_field_cases lim input) as Hb.
  destruct (stage_match 4 input) as [m|] eqn:H4.
  - destruct Hb as [(_ & ->) | ((e & -> & Hlong) & _)].
    + eexists. split; reflexivity.
    + pose proof (stage_match_length 4 input m H4). simpl in Hfit. lia.
  - rewrite Hb. eexists. split; reflexivity.
Qed.

Lemma parse_returns_without_bracket_witness :
  exists r, parse clf_parse_date default_limit (chars "10.0.0.1 200 17") = Ok r
            /\ r !! "timestamp" = Some INVALID.
Proof.
  apply (parse_returns_without_bracket clf_parse_date default_limit
           (chars "10.0.0.1 200 17")).
  - reflexivity.
  - simpl. lia.
Defined.

(** ** The text handed to the date parser *)

Lemma first_closing_bracket (t : list ascii) :
  (forall c, In c t -> is_char "]" c = false)
  \/ exists t1 t2, t = t1 ++ chars "]" ++ t2
       /\ (forall c, In c t1 -> is_char "]" c = false).
Proof.
  induction t as [|c t IH]; [ left; intros c [] | ].
  destruct (is_char "]" c) eqn:Hc.
  - right. exists [], t. apply Ascii.eqb_eq in Hc. subst c.
    split; [ reflexivity | intros c [] ].
  - destruct IH as [IH | (t1 & t2 & -> & H1)].
    + left. intros c' [<- | Hc']; [ exact Hc | apply IH, Hc' ].
    + right. exists (c :: t1), t2. split; [ reflexivity | ].
      intros c' [<- | Hc']; [ exact Hc | apply H1, Hc' ].
Qed.

(** The lazy star stops at the first closing bracket: the captured text
    holds none. *)
Lemma timestamp_match_inv prev s ps rest :
  match_at timestamp_pattern prev s = Some (ps, rest) ->
  exists t, ps = [chars "["; []; t; []; chars "]"]
            /\ bracket_free t = true.
Proof.
  intros H.
  pose proof (match_at_pieces _ _ _ _ _ H) as Hp.
  pose proof (match_at_sound _ _ _ _ _ H) as [Hs _].
  unfold timestamp_pattern in Hp. invert_pieces Hp.
  match goal with
  | Hp : forallb (in_class CAny) ?t = true /\ _ /\ _ |- _ =>
      destruct Hp as (Hany & _ & _); rename t into t0
  end.
  exists t0. split; [ reflexivity | ].
  destruct (first_closing_bracket t0) as [Hno | (t1 & t2 & -> & H1)].
  - unfold bracket_free. apply forallb_forall. intros c Hc.
    rewrite forallb_forall in Hany. rewrite (Hany c Hc), (Hno c Hc).
    reflexivity.
  - exfalso.
    rewrite forallb_app in Hany. apply andb_prop in Hany.
    destruct Hany as [Hany1 _].
    pose proof (timestamp_match t1 prev (t2 ++ chars "]" ++ rest) Hany1 H1)
      as Hm.
    simpl in H. rewrite <- !app_assoc in H. simpl in H, Hm.
    rewrite Hm in H. injection H as Ht _.
    apply (f_equal (@length ascii)) in Ht.
    rewrite length_app in Ht. simpl in Ht. lia.
Qed.

Lemma timestamp_text_bracket_free input m :
  stage_match 1 input = Some m ->
  bracket_free (group m "timestamp") = true.
Proof.
  intros Hm.
  destruct (stage_match_inv 1 input m Hm) as ((key & Hpat) & Hat & _).
  injection Hpat as _ Hre.
  rewrite <- Hre in Hat.
  apply timestamp_match_inv in Hat. destruct Hat as (t & Hps & Ht).
  unfold group. rewrite <- Hre, Hps. simpl. rewrite app_nil_r. exact Ht.
Qed.

(** X4: the date parser is only ever called on a text that holds no closing
    bracket and no newline: two date parsers that agree on those texts give
    the same result of [parse], exceptions included, on every line. *)
Theorem date_parser_sees_bracket_free_text :
  forall (parse_date parse_date' : list ascii -> result datetime)
         (digit_limit : option nat) (input : list ascii),
    (forall t, bracket_free t = true -> parse_date t = parse_date' t) ->
    parse parse_date digit_limit input = parse parse_date' digit_limit input.
Proof.
  intros pd pd' lim input H. rewrite !parse_record. unfold record_of.
  assert (E : timestamp_field pd (stage_match 1 input)
              = timestamp_field pd' (stage_match 1 input)).
  { destruct (stage_match 1 input) as [m|] eqn:Hm; [ | reflexivity ].
    unfold timestamp_field.
    rewrite (H _ (timestamp_text_bracket_free input m Hm)). reflexivity. }
  rewrite E. reflexivity.
Qed.

Lemma date_parser_sees_bracket_free_text_witness :
  parse clf_parse_date default_limit example_line
  = parse (fun t => if bracket_free t then clf_parse_date t
                    else Raise OverflowError)
      default_limit example_line.
Proof.
  apply (date_parser_sees_bracket_free_text clf_parse_date
           (fun t => if bracket_free t then clf_parse_date t
                     else Raise OverflowError)
           default_limit example_line).
  intros t Ht. rewrite Ht. reflexivity.
Defined.

(** ** The address *)

Lemma code_46 c : (code c =? 46) = true -> c = "."%char.
Proof.
  intros H. apply Nat.eqb_eq in H. unfold code in H.
  rewrite <- (ascii_nat_embedding c), H. reflexivity.
Qed.

Lemma split_dots_cons s : exists p ps, split_dots s = p :: ps.
Proof.
  induction s as [|c s (p & ps & IH)]; simpl; [ eauto | ].
  destruct (code c =? 46); [ eauto | ]. rewrite IH. eauto.
Qed.

(** Joining the parts of a split gives the text back. *)
Lemma join_split_dots s : join_dots (split_dots s) = s.
Proof.
  induction s as [|c s IH]; [ reflexivity | ]. cbn [split_dots].
  destruct (split_dots_cons s) as (p & ps & E). rewrite E in *.
  destruct (code c =? 46) eqn:Hc.
  - apply code_46 in Hc. subst c.
    change (join_dots ([] :: p :: ps)) with (chars "." ++ join_dots (p :: ps)).
    rewrite IH. reflexivity.
  - destruct ps as [|q ps].
    + simpl in *. rewrite IH. reflexivity.
    + change (join_dots ((c :: p) :: q :: ps))
        with (c :: join_dots (p :: q :: ps)).
      rewrite IH. reflexivity.
Qed.

Lemma decimal_nonneg s : (0 <= decimal s)%Z.
Proof.
  unfold decimal.
  assert (G : forall s acc, (0 <= acc)%Z ->
            (0 <= fold_left (fun a c => 10 * a + digit_value c) s acc)%Z).
  { clear s. induction s as [|c s IH]; intros acc Ha; simpl; [ exact Ha | ].
    apply IH. unfold digit_value. lia. }
  apply G. lia.
Qed.

Lemma octet_ok_range o :
  octet_ok o = true -> (0 <= decimal o <= 255)%Z.
Proof.
  unfold octet_ok. intros H. split_andb.
  split; [ apply decimal_nonneg | apply Z.leb_le; assumption ].
Qed.

Lemma ip_address_Ok s :
  ip_address s = Ok tt ->
  exists a b c d, s = dotted a b c d
    /\ Forall (fun o => octet_ok o = true) [a; b; c; d].
Proof.
  unfold ip_address. intros H.
  pose proof (join_split_dots s) as Hj.
  destruct (split_dots s) as [|a [|b [|c [|d [|? ?]]]]]; try discriminate.
  destruct (octet_ok a && octet_ok b && octet_ok c && octet_ok d) eqn:E;
    [ | discriminate ].
  split_andb. exists a, b, c, d. split.
  - rewrite <- Hj. reflexivity.
  - repeat constructor; assumption.
Qed.

Lemma ip_field_cases input :
  ip_field (stage_match 0 input) = INVALID
  \/ (exists a b c d pre post,
        ip_field (stage_match 0 input) = PStr (dotted a b c d)
        /\ input = pre ++ dotted a b c d ++ post
        /\ Forall (fun o => octet_ok o = true) [a; b; c; d]).
Proof.
  destruct (stage_match 0 input) as [m|] eqn:Hm; [ | left; reflexivity ].
  unfold ip_field.
  destruct (ip_address (group0 m)) as [[]|e] eqn:E; [ | left; reflexivity ].
  right. apply ip_address_Ok in E. destruct E as (o1 & o2 & o3 & o4 & E & Hok).
  exists o1, o2, o3, o4, (m_before m), (m_after m).
  rewrite <- E. split; [ reflexivity | split; [ | exact Hok ] ].
  rewrite <- (stage_match_text 0 input m Hm). reflexivity.
Qed.

(** X5: the value of [ip] is [INVALID] or an address that stands in the
    line: four octets joined by dots, each of one to three digits without a
    leading zero and at most 255. *)
Theorem ip_is_a_valid_address_of_the_line :
  forall (parse_date : list ascii -> result datetime)
         (digit_limit : option nat) (input : list ascii)
         (r : gmap string pyval),
    parse parse_date digit_limit input = Ok r ->
    r !! "ip" = Some INVALID
    \/ (exists a b c d pre post,
          r !! "ip" = Some (PStr (dotted a b c d))
          /\ input = pre ++ dotted a b c d ++ post
          /\ Forall (fun o => octet_ok o = true) [a; b; c; d]
          /\ Forall (fun o => (0 <= decimal o <= 255)%Z) [a; b; c; d]).
Proof.
  intros pd lim input r H.
  apply parse_Ok in H. destruct H as (ts & b & _ & _ & ->).
  change ((keyed _) !! "ip") with (Some (ip_field (stage_match 0 input))).
  destruct (ip_field_cases input)
    as [-> | (o1 & o2 & o3 & o4 & pre & post & -> & Hin & Hok)];
    [ left; reflexivity | right ].
  exists o1, o2, o3, o4, pre, post.
  split; [ reflexivity | split; [ exact Hin | split; [ exact Hok | ] ] ].
  eapply Forall_impl; [ exact Hok | ]. intros o. apply octet_ok_range.
Qed.

Lemma ip_is_a_valid_address_of_the_line_witness :
  example_record !! "ip" = Some INVALID
  \/ (exists a b c d pre post,
        example_record !! "ip" = Some (PStr (dotted a b c d))
        /\ example_line = pre ++ dotted a b c d ++ post
        /\ Forall (fun o => octet_ok o = true) [a; b; c; d]
        /\ Forall (fun o => (0 <= decimal o <= 255)%Z) [a; b; c; d]).
Proof.
  apply (ip_is_a_valid_address_of_the_line clf_parse_date default_limit
           example_line example_record).
  reflexivity.
Defined.

(** ** The request fields *)

Lemma request_match_groups input m :
  stage_match 2 input = Some m ->
  exists X U a b,
    group m "method" = X /\ forallb (in_class CAny) X = true
    /\ group m "url" = chars "/" ++ U
    /\ forallb (in_class CNonSpace) U = true /\ 1 <= length U
    /\ group m "protocol" = chars "HTTP/" ++ [a] ++ chars "." ++ [b]
    /\ is_digit a = true /\ is_digit b = true.
Proof.
  intros Hm.
  destruct (stage_match_pieces 2 input m _ _ eq_refl Hm) as [Hre H].
  unfold request_info_pattern, digit1 in H. invert_pieces H.
  repeat match goal with
    | Hp : forallb _ _ = true /\ _ /\ _ |- _ =>
        let Ha := fresh "Hall" in let Hl := fresh "Hlo" in
        let Hh := fresh "Hhi" in destruct Hp as (Ha & Hl & Hh)
    end.
  repeat match goal with
    | Hd : forallb (in_class CDigit) ?p = true,
      Hl : 1 <= length ?p, Hh : length ?p <= 1 |- _ =>
        destruct p as [|? [|? ?]]; simpl in Hl, Hh; try lia;
        simpl in Hd; apply andb_prop in Hd; destruct Hd as [Hd _];
        clear Hl Hh
    end.
  unfold group. rewrite Hre, E. simpl. rewrite !app_nil_r.
  do 4 eexists. repeat split; eauto.
Qed.

Lemma request_field_cases input :
  (method_field (stage_match 2 input) = INVALID
   \/ exists s, In s METHODS
        /\ method_field (stage_match 2 input) = PStr s)
  /\ (named_field "url" (stage_match 2 input) = INVALID
      \/ exists U, forallb (in_class CNonSpace) U = true /\ 1 <= length U
           /\ named_field "url" (stage_match 2 input)
              = PStr (chars "/" ++ U))
  /\ (named_field "protocol" (stage_match 2 input) = INVALID
      \/ exists a b, is_digit a = true /\ is_digit b = true
           /\ named_field "protocol" (stage_match 2 input)
              = PStr (chars "HTTP/" ++ [a] ++ chars "." ++ [b])).
Proof.
  destruct (stage_match 2 input) as [m|] eqn:Hm;
    [ | split; [ | split ]; left; reflexivity ].
  destruct (request_match_groups input m Hm)
    as (X & U & a & c & HX & _ & HU & HUs & HUl & HP & Ha & Hc).
  unfold method_field, named_field. rewrite HU, HP. split; [ | split ].
  - destruct (existsb (text_eqb (group m "method")) METHODS) eqn:E;
      [ right | left; reflexivity ].
    apply existsb_text_eqb in E. eauto.
  - right. exists U. auto.
  - right. exists a, c. auto.
Qed.

(** X6: the shapes of the request fields.  [method] is [INVALID] or one of
    GET, POST, PUT and DELETE; [url] is [INVALID] or a slash followed by at
    least one character, none of them white space; [protocol] is [INVALID]
    or HTTP/, a digit, a dot and a digit. *)
Theorem request_values_have_their_shapes :
  forall (parse_date : list ascii -> result datetime)
         (digit_limit : option nat) (input : list ascii)
         (r : gmap string pyval),
    parse parse_date digit_limit input = Ok r ->
    (r !! "method" = Some INVALID
     \/ exists s, In s METHODS /\ r !! "method" = Some (PStr s))
    /\ (r !! "url" = Some INVALID
        \/ exists U, forallb (in_class CNonSpace) U = true /\ 1 <= length U
                     /\ r !! "url" = Some (PStr (chars "/" ++ U)))
    /\ (r !! "protocol" = Some INVALID
        \/ exists a b, is_digit a = true /\ is_digit b = true
             /\ r !! "protocol"
                = Some (PStr (chars "HTTP/" ++ [a] ++ chars "." ++ [b]))).
Proof.
  intros pd lim input r H.
  apply parse_Ok in H. destruct H as (ts & b & _ & _ & ->).
  change ((keyed _) !! "method")
    with (Some (method_field (stage_match 2 input))).
  change ((keyed _) !! "url")
    with (Some (named_field "url" (stage_match 2 input))).
  change ((keyed _) !! "protocol")
    with (Some (named_field "protocol" (stage_match 2 input))).
  destruct (request_field_cases input) as (Hm & Hu & Hp).
  split; [ | split ].
  - destruct Hm as [-> | (s & Hs & ->)]; [ left | right; exists s ]; auto.
  - destruct Hu as [-> | (U & H1 & H2 & ->)]; [ left | right; exists U ]; auto.
  - destruct Hp as [-> | (a & c & H1 & H2 & ->)];
      [ left | right; exists a, c ]; auto.
Qed.

Lemma request_values_have_their_shapes_witness :
  (example_record !! "method" = Some INVALID
   \/ exists s, In s METHODS /\ example_record !! "method" = Some (PStr s))
  /\ (example_record !! "url" = Some INVALID
      \/ exists U, forallb (in_class CNonSpace) U = true /\ 1 <= length U
                   /\ example_record !! "url" = Some (PStr (chars "/" ++ U)))
  /\ (example_record !! "protocol" = Some INVALID
      \/ exists a b, is_digit a = true /\ is_digit b = true
           /\ example_record !! "protocol"
              = Some (PStr (chars "HTTP/" ++ [a] ++ chars "." ++ [b]))).
Proof.
  apply (request_values_have_their_shapes clf_parse_date default_limit
           example_line example_record).
  reflexivity.
Defined.

(** ** The byte count *)

Lemma digit_prefix (s : list ascii) :
  exists run post, s = run ++ post /\ forallb is_digit run = true
    /\ (forall c, head post = Some c -> is_digit c = false).
Proof.
  induction s as [|c s (run & post & -> & Hr & Hp)].
  - exists [], []. repeat split. intros c Hc. discriminate Hc.
  - destruct (is_digit c) eqn:Hc.
    + exists (c :: run), post. simpl. rewrite Hc. auto.
    + exists [], (c :: run ++ post). repeat split.
      intros c' Hc'. injection Hc' as <-. exact Hc.
Qed.

(** A text without digits, or its first run of digits. *)
Lemma first_digit_run (s : list ascii) :
  digit_free s = true
  \/ exists pre run post,
       s = pre ++ run ++ post /\ digit_free pre = true
       /\ forallb is_digit run = true /\ 1 <= length run
       /\ (forall c, head post = Some c -> is_digit c = false).
Proof.
  induction s as [|c s IH]; [ left; reflexivity | ].
  destruct (is_digit c) eqn:Hc.
  - right. destruct (digit_prefix s) as (run & post & -> & Hr & Hp).
    exists [], (c :: run), post. simpl. rewrite Hc.
    repeat split; auto. lia.
  - destruct IH as [IH | (pre & run & post & -> & Hpre & Hr & Hl & Hp)].
    + left. unfold digit_free in *. simpl. rewrite Hc, IH. reflexivity.
    + right. exists (c :: pre), run, post. unfold digit_free in *. simpl.
      rewrite Hc, Hpre. auto.
Qed.

Lemma digit_free_no_start its :
  (forall c, is_digit c = false -> no_start its c) ->
  forall s, digit_free s = true -> Forall (no_start its) s.
Proof.
  intros H s Hs.
  apply (forallb_Forall_imp (fun c => negb (is_digit c))); [ | exact Hs ].
  intros c Hc. apply H, negb_true_iff, Hc.
Qed.

Lemma find_first_digit_run pre run post prev :
  digit_free pre = true -> forallb is_digit run = true -> 1 <= length run ->
  (forall c, head post = Some c -> is_digit c = false) ->
  find bytes_sent_pattern prev (pre ++ run ++ post)
  = Some (pre, ([run], post)).
Proof.
  intros Hpre Hr Hl Hp.
  assert (Hsk : skips bytes_sent_pattern pre).
  { apply no_start_skips, (digit_free_no_start _ bytes_no_start), Hpre. }
  rewrite Hsk.
  rewrite (find_here _ _ _ ([run], post));
    [ simpl; rewrite app_nil_r; reflexivity | ].
  unfold bytes_sent_pattern.
  apply match_rep_greedy_stop; [ exact Hr | exact Hl | exact I | exact Hp | ].
  reflexivity.
Qed.

Lemma bytes_field_first_run digit_limit input b :
  bytes_sent_field digit_limit (stage_match 4 input) = Ok b ->
  (digit_free (working_text 4 input) = true /\ b = INVALID)
  \/ (exists pre run post,
        working_text 4 input = pre ++ run ++ post
        /\ digit_free pre = true
        /\ forallb is_digit run = true /\ 1 <= length run
        /\ (forall c, head post = Some c -> is_digit c = false)
        /\ b = PInt (decimal run)).
Proof.
  intros Hb.
  destruct (first_digit_run (working_text 4 input))
    as [Hfree | (pre & run & post & Hw & Hpre & Hr & Hl & Hp)].
  - left. split; [ exact Hfree | ].
    assert (H4 : stage_match 4 input = None).
    { apply (stage_match_None 4 input _ _ eq_refl).
      apply find_no_start; [ reflexivity | ].
      apply (digit_free_no_start _ bytes_no_start), Hfree. }
    rewrite H4 in Hb. injection Hb as <-. reflexivity.
  - right. exists pre, run, post.
    assert (H4 : stage_match 4 input
                 = Some (mkMatch bytes_sent_pattern pre [run] post)).
    { apply (stage_find 4 input _ _ pre [run] post eq_refl).
      rewrite Hw. apply find_first_digit_run; assumption. }
    rewrite H4 in Hb. unfold bytes_sent_field, group0 in Hb.
    cbn [m_pieces concat] in Hb. rewrite app_nil_r in Hb.
    rewrite (py_int_digits _ _ Hr Hl) in Hb.
    assert (b = PInt (decimal run)).
    { destruct digit_limit as [e|]; [ destruct (640 + e <? length run) | ];
        congruence. }
    subst b. repeat split; auto.
Qed.

(** X7: the value of [bytes_sent].  When what the first four stages leave
    of the line holds no digit, it is [INVALID]; otherwise it is the decimal
    value of the first run of digits left, taken as a whole, an integer that
    is never negative. *)
Theorem bytes_sent_is_first_digit_run :
  forall (parse_date : list ascii -> result datetime)
         (digit_limit : option nat) (input : list ascii)
         (r : gmap string pyval),
    parse parse_date digit_limit input = Ok r ->
    (digit_free (working_text 4 input) = true
     /\ r !! "bytes_sent" = Some INVALID)
    \/ (exists pre run post,
          working_text 4 input = pre ++ run ++ post
          /\ digit_free pre = true
          /\ forallb is_digit run = true /\ 1 <= length run
          /\ (forall c, head post = Some c -> is_digit c = false)
          /\ r !! "bytes_sent" = Some (PInt (decimal run))
          /\ (0 <= decimal run)%Z).
Proof.
  intros pd lim input r H.
  apply parse_Ok in H. destruct H as (ts & b & _ & Hb & ->).
  change ((keyed _) !! "bytes_sent") with (Some b).
  destruct (bytes_field_first_run lim input b Hb)
    as [(Hfree & ->) | (pre & run & post & Hw & Hpre & Hr & Hl & Hp & ->)].
  - left. auto.
  - right. exists pre, run, post. repeat split; auto. apply decimal_nonneg.
Qed.

Lemma bytes_sent_is_first_digit_run_witness :
  (digit_free (working_text 4 example_line) = true
   /\ example_record !! "bytes_sent" = Some INVALID)
  \/ (exists pre run post,
        working_text 4 example_line = pre ++ run ++ post
        /\ digit_free pre = true
        /\ forallb is_digit run = true /\ 1 <= length run
        /\ (forall c, head post = Some c -> is_digit c = false)
        /\ example_record !! "bytes_sent" = Some (PInt (decimal run))
        /\ (0 <= decimal run)%Z).
Proof.
  apply (bytes_sent_is_first_digit_run clf_parse_date default_limit
           example_line example_record).
  reflexivity.
Defined.

(** ** Lines without digits *)

Lemma request_needs_digit prev s r :
  match_at request_info_pattern prev s = Some r ->
  exists c, In c s /\ negb (is_digit c) = false.
Proof.
  destruct r as [ps rest]. intros H.
  pose proof (match_at_sound _ _ _ _ _ H) as [Hs _].
  apply match_at_pieces in H. unfold request_info_pattern, digit1 in H.
  invert_pieces H.
  repeat match goal with
    | Hp : forallb _ _ = true /\ _ /\ _ |- _ => destruct Hp as (? & ? & ?)
    end.
  match goal with
  | Hd : forallb (in_class CDigit) ?p = true, Hl : 1 <= length ?p |- _ =>
      destruct p as [|c p]; [ simpl in Hl; lia | ];
      exists c; split;
      [ simpl; repeat (rewrite !in_app_iff; simpl); tauto
      | simpl in Hd; apply andb_prop in Hd; destruct Hd as [Hd _];
        simpl in Hd; rewrite Hd; reflexivity ]
  end.
Qed.

Lemma digit_free_no_digit_stage input :
  digit_free input = true ->
  stage_match 0 input = None /\ stage_match 2 input = None
  /\ stage_match 3 input = None /\ stage_match 4 input = None.
Proof.
  intros Hfree.
  assert (Hw : forall n, digit_free (working_text n input) = true).
  { intros n. apply working_text_forallb. exact Hfree. }
  repeat split.
  - apply (stage_match_None 0 input _ _ eq_refl).
    apply find_no_start; [ reflexivity | ].
    apply (digit_free_no_start _ ip_no_start), Hw.
  - apply (stage_match_None 2 input _ _ eq_refl).
    apply (find_needs (fun c => negb (is_digit c)));
      [ apply request_needs_digit | apply Hw ].
  - apply (stage_match_None 3 input _ _ eq_refl).
    apply find_no_start;
      [ intros [a|]; [ simpl; destruct (_ || _) | ]; reflexivity | ].
    apply (digit_free_no_start _ status_no_start), Hw.
  - apply (stage_match_None 4 input _ _ eq_refl).
    apply find_no_start; [ reflexivity | ].
    apply (digit_free_no_start _ bytes_no_start), Hw.
Qed.

(** X8: a line without any digit gives [INVALID] for every field but the
    timestamp: the address, the request (whose protocol needs two digits),
    the status code and the byte count all need a digit. *)
Theorem line_without_digits :
  forall (parse_date : list ascii -> result datetime)
         (digit_limit : option nat) (input : list ascii)
         (r : gmap string pyval),
    digit_free input = true ->
    parse parse_date digit_limit input = Ok r ->
    r !! "ip" = Some INVALID /\ r !! "method" = Some INVALID
    /\ r !! "url" = Some INVALID /\ r !! "protocol" = Some INVALID
    /\ r !! "status_code" = Some INVALID
    /\ r !! "bytes_sent" = Some INVALID.
Proof.
  intros pd lim input r Hfree H.
  apply parse_Ok in H. destruct H as (ts & b & _ & Hb & ->).
  destruct (digit_free_no_digit_stage input Hfree) as (H0 & H2 & H3 & H4).
  rewrite H4 in Hb. injection Hb as <-.
  rewrite H0, H2, H3. repeat split; reflexivity.
Qed.

Lemma line_without_digits_witness :
  all_invalid !! "ip" = Some INVALID /\ all_invalid !! "method" = Some INVALID
  /\ all_invalid !! "url" = Some INVALID
  /\ all_invalid !! "protocol" = Some INVALID
  /\ all_invalid !! "status_code" = Some INVALID
  /\ all_invalid !! "bytes_sent" = Some INVALID.
Proof.
  apply (line_without_digits clf_parse_date default_limit
           (quoted (chars "GET /index.html HTTP/x.y")) all_invalid).
  - reflexivity.
  - reflexivity.
Defined.

(** ** Lines in the order of the Common Log Format *)






(** ** Every character is captured once or left over *)

Lemma origins_split n input :
  origins n input ≡ₚ origins (S n) input ++ captured n input.
Proof.
  unfold captured. simpl.
  destruct (stage_match n input) as [m|]; [ | rewrite app_nil_r; reflexivity ].
  unfold cut, span.
  set (l := origins n input). set (b := length (m_before m)).
  set (g := length (group0 m)).
  rewrite <- (take_drop b l) at 1.
  rewrite <- (take_drop g (drop b l)) at 1.
  rewrite drop_drop, <- app_assoc.
  apply Permutation_app_head, Permutation_app_comm.
Qed.

Lemma origins_partition n input :
  origins n input
    ++ concat (map (fun i => captured i input) (seq 0 n))
  ≡ₚ seq 0 (length input).
Proof.
  induction n as [|n IH]; [ simpl; rewrite app_nil_r; reflexivity | ].
  rewrite seq_S, map_app, concat_app. simpl. rewrite app_nil_r.
  rewrite <- IH, (origins_split n input).
  rewrite <- !app_assoc. apply Permutation_app_head, Permutation_app_comm.
Qed.

(** X10: the loop of [parse] loses nothing and takes nothing twice.  The
    positions of the line are, up to order, the positions of the characters
    left over after the five patterns together with the positions the five
    matches cover; the text left over is the line read at the positions
    left, in order. *)
Theorem characters_are_captured_once_or_left :
  forall (input : list ascii),
    origins (length patterns) input ++ captured_by_stages input
      ≡ₚ seq 0 (length input)
    /\ Forall2 (fun i c => input !! i = Some c)
         (origins (length patterns) input) (extract input).2
    /\ length input
       = length (extract input).2 + length (captured_by_stages input).
Proof.
  intros input.
  pose proof (origins_partition (length patterns) input) as Hp.
  pose proof (origins_text (length patterns) input) as Ht.
  rewrite extract_eq. cbn [snd].
  split; [ exact Hp | split; [ exact Ht | ] ].
  apply Permutation_length in Hp.
  rewrite length_app, length_seq in Hp.
  pose proof (Forall2_length _ _ _ Ht) as Hl.
  unfold captured_by_stages. change (length patterns) with 5 in *. lia.
Qed.

(** ** [transform_extracted_info] on a dictionary without matches *)

Lemma py_group0_no_match (o : option pyval) :
  (forall m, o <> Some (PMatch m)) -> py_group0 o = Raise AttributeError.
Proof.
  intros H. destruct o as [[ | | | | | m]|]; try reflexivity.
  destruct (H m eq_refl).
Qed.

Lemma py_group_no_match (o : option pyval) g :
  (forall m, o <> Some (PMatch m)) -> py_group o g = Raise AttributeError.
Proof.
  intros H. destruct o as [[ | | | | | m]|]; try reflexivity.
  destruct (H m eq_refl).
Qed.

Lemma all_fields_invalid_lookup info :
  (forall k, In k total_valid_keys ->
     all_fields_invalid info !! k = Some INVALID)
  /\ (forall k, ~ In k total_valid_keys ->
        all_fields_invalid info !! k = info !! k).
Proof.
  unfold all_fields_invalid. split.
  - intros k Hk. simpl in Hk.
    destruct Hk as [<- | [<- | [<- | [<- | [<- | [<- | [<- | []]]]]]]];
      repeat first [ rewrite lookup_insert_eq; reflexivity
                   | rewrite lookup_insert_ne by discriminate ].
  - intros k Hk.
    rewrite !lookup_insert_ne; [ reflexivity | .. ];
      intros <-; apply Hk; simpl; tauto.
Qed.

(** X11: [transform_extracted_info] on a dictionary that holds no match
    object under the keys of the patterns.  The date parser, [int] and the
    address check are never reached.  When the values under [request_info],
    [status_code] and [bytes_sent] are each absent or false as a condition,
    the function returns the dictionary with the seven fields set to
    [INVALID] and every other key as it was; otherwise it raises
    [AttributeError]: the value has no method [group], and only the steps
    for the address and the timestamp catch that. *)
Theorem transform_without_matches :
  forall (parse_date : list ascii -> result datetime)
         (digit_limit : option nat) (extracted_info : gmap string pyval),
    holds_no_match extracted_info ->
    transform_extracted_info parse_date digit_limit extracted_info
    = (if truthy_get (extracted_info !! "request_info")
          || truthy_get (extracted_info !! "status_code")
          || truthy_get (extracted_info !! "bytes_sent")
       then Raise AttributeError
       else Ok (all_fields_invalid extracted_info))
    /\ (forall k, In k total_valid_keys ->
          all_fields_invalid extracted_info !! k = Some INVALID)
    /\ (forall k, ~ In k total_valid_keys ->
          all_fields_invalid extracted_info !! k = extracted_info !! k).
Proof.
  intros pd lim info Hno.
  split; [ | apply all_fields_invalid_lookup ].
  assert (H : forall k, In k pattern_keys ->
                forall m, info !! k <> Some (PMatch m)).
  { intros k Hk m. apply Hno, Hk. }
  unfold transform_extracted_info, all_fields_invalid.
  unfold transform_ip.
  rewrite (py_group0_no_match _ (H "ip" ltac:(simpl; tauto))).
  cbn [mbind result_bind try_except existsb exn_eqb orb].
  unfold transform_timestamp. rewrite lookup_insert_ne by discriminate.
  rewrite (py_group_no_match _ _ (H "timestamp" ltac:(simpl; tauto))).
  cbn [mbind result_bind try_except existsb exn_eqb orb].
  unfold transform_request. rewrite !lookup_insert_ne by discriminate.
  destruct (truthy_get (info !! "request_info")) eqn:Hr.
  { rewrite (py_group_no_match (info !! "request_info") "method"
               (H "request_info" ltac:(simpl; tauto))).
    reflexivity. }
  cbn [mbind result_bind orb].
  unfold transform_status_code. rewrite !lookup_insert_ne by discriminate.
  destruct (truthy_get (info !! "status_code")) eqn:Hs.
  { rewrite (py_group0_no_match _ (H "status_code" ltac:(simpl; tauto))).
    reflexivity. }
  cbn [mbind result_bind orb].
  unfold transform_bytes_sent. rewrite !lookup_insert_ne by discriminate.
  destruct (truthy_get (info !! "bytes_sent")) eqn:Hb.
  { rewrite (py_group0_no_match _ (H "bytes_sent" ltac:(simpl; tauto))).
    reflexivity. }
  reflexivity.
Qed.

Lemma transform_without_matches_witness :
  transform_extracted_info clf_parse_date default_limit
    {["note" := PInt 7; "status_code" := PStr (chars "200")]}
  = Raise AttributeError
  /\ transform_extracted_info clf_parse_date default_limit
       {["note" := PInt 7; "ip" := PStr (chars "10.0.0.1")]}
     = Ok (all_fields_invalid
             {["note" := PInt 7; "ip" := PStr (chars "10.0.0.1")]}).
Proof.
  assert (Hno : forall info : gmap string pyval,
            (forall k, In k pattern_keys ->
               match info !! k with Some (PMatch _) => False | _ => True end) ->
            holds_no_match info).
  { intros info H k m Hk E. specialize (H k Hk). rewrite E in H. exact H. }
  split.
  - destruct (transform_without_matches clf_parse_date default_limit
                {["note" := PInt 7; "status_code" := PStr (chars "200")]})
      as [E _]; [ | rewrite E; reflexivity ].
    apply Hno. intros k Hk. simpl in Hk.
    destruct Hk as [<- | [<- | [<- | [<- | [<- | []]]]]]; exact I.
  - destruct (transform_without_matches clf_parse_date default_limit
                {["note" := PInt 7; "ip" := PStr (chars "10.0.0.1")]})
      as [E _]; [ | rewrite E; reflexivity ].
    apply Hno. intros k Hk. simpl in Hk.
    destruct Hk as [<- | [<- | [<- | [<- | [<- | []]]]]]; exact I.
Defined.

(** ** More about the reward *)

Lemma filter_length_all {A} (f : A -> bool) (l : list A) :
  length (List.filter f l) = length l <-> forall x, In x l -> f x = true.
Proof.
  induction l as [|a l IH]; simpl; [ tauto | ].
  pose proof (filter_length_le f l) as Hle.
  destruct (f a) eqn:E; simpl.
  - split.
    + intros H x [<- | Hx]; [ exact E | ]. apply IH; [ lia | exact Hx ].
    + intros H. f_equal. apply IH. intros x Hx. apply H. right. exact Hx.
  - split; [ lia | ]. intros H. rewrite (H a) in E; [ discriminate | ].
    left. reflexivity.
Qed.

Lemma filter_length_none {A} (f : A -> bool) (l : list A) :
  length (List.filter f l) = 0 <-> forall x, In x l -> f x = false.
Proof.
  induction l as [|a l IH]; simpl; [ tauto | ].
  destruct (f a) eqn:E; simpl.
  - split; [ lia | ]. intros H. rewrite (H a) in E; [ discriminate | ].
    left. reflexivity.
  - rewrite IH. split.
    + intros H x [<- | Hx]; [ exact E | apply H; exact Hx ].
    + intros H x Hx. apply H. right. exact Hx.
Qed.

Lemma filter_length_ext {A} (f g : A -> bool) (l : list A) :
  (forall x, In x l -> f x = g x) ->
  length (List.filter f l) = length (List.filter g l).
Proof.
  induction l as [|a l IH]; intros H; simpl; [ reflexivity | ].
  rewrite (H a) by (left; reflexivity).
  destruct (g a); simpl; rewrite IH; auto; intros x Hx; apply H; right; auto.
Qed.

Lemma filter_length_flip {A} `{EqDecision A} (f g : A -> bool)
    (l : list A) (a : A) :
  NoDup l -> In a l -> f a = false -> g a = true ->
  (forall x, x <> a -> f x = g x) ->
  length (List.filter g l) = S (length (List.filter f l)).
Proof.
  intros Hnd. induction Hnd as [|b l Hb Hnd IH]; intros Ha Hf Hg Hext;
    [ destruct Ha | ].
  simpl. destruct (decide (b = a)) as [-> | Hne].
  - rewrite Hf, Hg. simpl. f_equal. apply filter_length_ext.
    intros x Hx. symmetry. apply Hext. intros ->. apply Hb.
    apply list_elem_of_In. exact Hx.
  - rewrite (Hext b Hne).
    assert (Ha' : In a l) by (destruct Ha as [E | E]; [ congruence | exact E ]).
    destruct (g b); simpl; rewrite (IH Ha' Hf Hg Hext); reflexivity.
Qed.

(** A key counts exactly when its value is true as a condition and is not
    [INVALID]. *)
Lemma code_filled_true response key :
  code_filled response key = true <->
  exists v, response !! key = Some v /\ truthy v = true /\ v <> INVALID.
Proof.
  unfold code_filled, not_in_invalid_or_empty.
  destruct (response !! key) as [v|]; split.
  - intros H. apply andb_prop in H. destruct H as [Ht Hn].
    exists v. split; [ reflexivity | split; [ exact Ht | ] ].
    intros ->. discriminate Hn.
  - intros (w & Hw & Ht & Hn). injection Hw as <-. rewrite Ht. simpl.
    destruct v as [ | b | n | s | d | m ]; try reflexivity.
    unfold eq_str, text_eqb.
    destruct s as [|c s]; [ discriminate Ht | ].
    rewrite orb_false_r. apply negb_true_iff, bool_decide_eq_false_2.
    intros E. apply Hn. unfold INVALID. rewrite E. reflexivity.
  - discriminate.
  - intros (w & Hw & _). discriminate Hw.
Qed.

Lemma code_filled_false response key :
  code_filled response key = false <->
  forall v, response !! key = Some v -> truthy v = false \/ v = INVALID.
Proof.
  split.
  - intros E v Hv.
    destruct (truthy v) eqn:Ht; [ right | left; reflexivity ].
    destruct v as [ | b | z | s | d | m ];
      try (exfalso; assert (code_filled response key = true);
           [ apply code_filled_true; eexists; split; [ exact Hv | ];
             split; [ exact Ht | discriminate ]
           | congruence ]).
    destruct (decide (s = INVALID_text)) as [-> | Hs]; [ reflexivity | ].
    exfalso. assert (code_filled response key = true); [ | congruence ].
    apply code_filled_true. eexists. split; [ exact Hv | ].
    split; [ exact Ht | ]. intros Hi. injection Hi as Hi. auto.
  - intros H.
    destruct (code_filled response key) eqn:E; [ exfalso | reflexivity ].
    apply code_filled_true in E. destruct E as (v & Hv & Ht & Hn).
    destruct (H v Hv); congruence.
Qed.

Lemma code_filled_ext response response' k :
  response !! k = response' !! k ->
  code_filled response k = code_filled response' k.
Proof. unfold code_filled. intros ->. reflexivity. Qed.

Lemma reward_num query response :
  reward query response = (Z.of_nat (valid_keys_of response) # 7)%Q.
Proof. reflexivity. Qed.

Lemma reward_one_filled query response :
  (reward query response == 1)%Q <->
  forall k, In k total_valid_keys -> code_filled response k = true.
Proof.
  rewrite reward_num, valid_keys_of_eq.
  pose proof (filter_length_le (code_filled response) total_valid_keys) as Hle.
  pose proof (filter_length_all (code_filled response) total_valid_keys)
    as Hall.
  change (length total_valid_keys) with 7 in Hle, Hall.
  set (n := length (List.filter (code_filled response) total_valid_keys)) in *.
  unfold Qeq. cbn [Qnum Qden]. rewrite <- Hall. lia.
Qed.

Lemma reward_zero_filled query response :
  (reward query response == 0)%Q <->
  forall k, In k total_valid_keys -> code_filled response k = false.
Proof.
  rewrite reward_num, valid_keys_of_eq.
  pose proof (filter_length_none (code_filled response) total_valid_keys)
    as Hnone.
  set (n := length (List.filter (code_filled response) total_valid_keys)) in *.
  unfold Qeq. cbn [Qnum Qden]. rewrite <- Hnone. lia.
Qed.

(** X12: the two ends of the scale.  The reward is 1 exactly when each of
    the seven keys has a value that is true as a condition and is not
    [INVALID]; it is 0 exactly when no key has such a value, be it absent,
    [INVALID], empty, zero or [None]. *)
Theorem reward_full_or_zero_iff :
  forall (query : list ascii) (response : gmap string pyval),
    ((reward query response == 1)%Q <->
     forall k, In k total_valid_keys ->
       exists v, response !! k = Some v /\ truthy v = true /\ v <> INVALID)
    /\ ((reward query response == 0)%Q <->
        forall k v, In k total_valid_keys -> response !! k = Some v ->
          truthy v = false \/ v = INVALID).
Proof.
  intros query response. rewrite reward_one_filled, reward_zero_filled.
  split; split.
  - intros H k Hk. apply code_filled_true, H, Hk.
  - intros H k Hk. apply code_filled_true, H, Hk.
  - intros H k v Hk. apply code_filled_false, H, Hk.
  - intros H k Hk. apply code_filled_false. intros v. apply H, Hk.
Qed.

(** X13: the reward reads the seven keys of the response and nothing else:
    two responses that agree on them get the same reward, whatever other
    keys they hold and whatever the query is. *)
Theorem reward_reads_seven_keys :
  forall (query query' : list ascii) (response response' : gmap string pyval),
    (forall k, In k total_valid_keys -> response !! k = response' !! k) ->
    reward query response = reward query' response'.
Proof.
  intros q q' r r' H. rewrite !reward_num, !valid_keys_of_eq.
  rewrite (filter_length_ext (code_filled r) (code_filled r'));
    [ reflexivity | ].
  intros k Hk. apply code_filled_ext, H, Hk.
Qed.

Lemma reward_reads_seven_keys_witness :
  reward (chars "a") (<["extra" := PInt 1]> example_record)
  = reward (chars "b") example_record.
Proof.
  apply (reward_reads_seven_keys (chars "a") (chars "b")
           (<["extra" := PInt 1]> example_record) example_record).
  intros k Hk. apply lookup_insert_ne.
  simpl in Hk. intros <-.
  repeat (destruct Hk as [Hk | Hk]; [ discriminate Hk | ]). exact Hk.
Defined.

(** X14: each field counts once.  Giving a key of the seven that did not
    count a value that is true as a condition and is not [INVALID] raises
    the count of filled keys by exactly one: the reward, the quotient of the
    count by seven, is then the quotient of the next number and is strictly
    larger. *)
Theorem reward_fill_counts_one_more :
  forall (query : list ascii) (response : gmap string pyval)
         (key : string) (v : pyval),
    In key total_valid_keys ->
    (forall w, response !! key = Some w -> truthy w = false \/ w = INVALID) ->
    truthy v = true -> v <> INVALID ->
    valid_keys_of (<[key := v]> response) = S (valid_keys_of response)
    /\ reward query response
       = (Z.of_nat (valid_keys_of response) # 7)%Q
    /\ reward query (<[key := v]> response)
       = (Z.of_nat (S (valid_keys_of response)) # 7)%Q
    /\ (reward query response < reward query (<[key := v]> response))%Q.
Proof.
  intros q r key v Hk Hold Ht Hn.
  assert (E : valid_keys_of (<[key := v]> r) = S (valid_keys_of r)).
  { rewrite !valid_keys_of_eq.
    apply (filter_length_flip (code_filled r)
             (code_filled (<[key := v]> r)) total_valid_keys key).
    - apply (bool_decide_unpack _). reflexivity.
    - exact Hk.
    - apply code_filled_false, Hold.
    - apply code_filled_true. exists v.
      split; [ apply lookup_insert_eq | auto ].
    - intros k Hne. apply code_filled_ext. symmetry. apply lookup_insert_ne.
      congruence. }
  split; [ exact E | ]. rewrite !reward_num, E.
  split; [ reflexivity | split; [ reflexivity | ] ].
  unfold Qlt. cbn [Qnum Qden]. lia.
Qed.

Lemma reward_fill_counts_one_more_witness :
  valid_keys_of (<["ip" := PStr (chars "10.0.0.1")]> all_invalid)
  = S (valid_keys_of all_invalid)
  /\ reward [] all_invalid = (Z.of_nat (valid_keys_of all_invalid) # 7)%Q
  /\ reward [] (<["ip" := PStr (chars "10.0.0.1")]> all_invalid)
     = (Z.of_nat (S (valid_keys_of all_invalid)) # 7)%Q
  /\ (reward [] all_invalid
      < reward [] (<["ip" := PStr (chars "10.0.0.1")]> all_invalid))%Q.
Proof.
  apply (reward_fill_counts_one_more [] all_invalid "ip"
           (PStr (chars "10.0.0.1"))).
  - left. reflexivity.
  - intros w Hw. right. vm_compute in Hw. injection Hw as <-. reflexivity.
  - reflexivity.
  - discriminate.
Defined.

(** ** The reward of a record that [parse] returns *)

Lemma status_match_text input m :
  stage_match 3 input = Some m ->
  exists a b c, group0 m = [a; b; c].
Proof.
  intros Hm.
  destruct (stage_match_inv 3 input m Hm) as ((key & Hpat) & Hat & _).
  injection Hpat as _ Hre. rewrite <- Hre in Hat.
  apply status_match_shape in Hat.
  destruct Hat as (a & b & c & Hps & _).
  exists a, b, c. unfold group0. rewrite Hps. reflexivity.
Qed.

(** Every value of a record of [parse] is [INVALID] or counts for the
    reward, a byte count of zero apart. *)
Lemma parse_values parse_date digit_limit input r :
  parse parse_date digit_limit input = Ok r ->
  forall k, In k total_valid_keys ->
    exists v, r !! k = Some v
      /\ (v = INVALID \/ (truthy v = true /\ v <> INVALID)
          \/ (k = "bytes_sent" /\ v = PInt 0)).
Proof.
  intros H.
  apply parse_Ok in H. destruct H as (ts & b & Hts & Hb & ->).
  destruct (request_field_cases input) as (Hmeth & Hurl & Hprot).
  intros k Hk. simpl in Hk.
  destruct Hk as [<- | [<- | [<- | [<- | [<- | [<- | [<- | []]]]]]]].
  - change ((keyed _) !! "ip") with (Some (ip_field (stage_match 0 input))).
    eexists. split; [ reflexivity | ].
    destruct (ip_field_cases input)
      as [-> | (o1 & o2 & o3 & o4 & pre & post & -> & _ & Hok)];
      [ left; reflexivity | right; left ].
    apply Forall_cons in Hok. destruct Hok as [Hok _].
    unfold octet_ok in Hok. split_andb.
    destruct o1 as [|c o1]; [ discriminate | ].
    split; [ reflexivity | ].
    intros E. injection E as -> _. discriminate.
  - change ((keyed _) !! "timestamp") with (Some ts).
    exists ts. split; [ reflexivity | ].
    destruct (stage_match 1 input) as [m|]; simpl in Hts;
      [ | injection Hts as <-; left; reflexivity ].
    destruct (parse_date (group m "timestamp")) as [d|[]];
      try discriminate; injection Hts as <-;
      [ right; left; split; [ reflexivity | discriminate ]
      | left; reflexivity ].
  - change ((keyed _) !! "method")
      with (Some (method_field (stage_match 2 input))).
    eexists. split; [ reflexivity | ].
    destruct Hmeth as [-> | (s & Hs & ->)];
      [ left; reflexivity | right; left ].
    simpl in Hs.
    destruct Hs as [<- | [<- | [<- | [<- | []]]]];
      (split; [ reflexivity | discriminate ]).
  - change ((keyed _) !! "url")
      with (Some (named_field "url" (stage_match 2 input))).
    eexists. split; [ reflexivity | ].
    destruct Hurl as [-> | (U & _ & _ & ->)];
      [ left; reflexivity | right; left ].
    split; [ reflexivity | discriminate ].
  - change ((keyed _) !! "protocol")
      with (Some (named_field "protocol" (stage_match 2 input))).
    eexists. split; [ reflexivity | ].
    destruct Hprot as [-> | (a & c & _ & _ & ->)];
      [ left; reflexivity | right; left ].
    split; [ reflexivity | discriminate ].
  - change ((keyed _) !! "status_code")
      with (Some (status_code_field (stage_match 3 input))).
    eexists. split; [ reflexivity | ].
    destruct (stage_match 3 input) as [m|] eqn:Hm; [ | left; reflexivity ].
    destruct (status_match_text input m Hm) as (a & c & d & E).
    right; left. unfold status_code_field. rewrite E.
    split; [ reflexivity | discriminate ].
  - change ((keyed _) !! "bytes_sent") with (Some b).
    exists b. split; [ reflexivity | ].
    destruct (bytes_field_first_run digit_limit input b Hb)
      as [(_ & ->) | (pre & run & post & _ & _ & _ & _ & _ & ->)];
      [ left; reflexivity | ].
    destruct (decide (decimal run = 0%Z)) as [-> | Hz];
      [ right; right; auto | right; left ].
    split; [ | discriminate ].
    simpl. apply negb_true_iff, Z.eqb_neq, Hz.
Qed.

Lemma parsed_reward_one parse_date digit_limit input query r :
  parse parse_date digit_limit input = Ok r ->
  (reward query r == 1)%Q <->
  (forall k, In k total_valid_keys -> r !! k <> Some INVALID)
  /\ r !! "bytes_sent" <> Some (PInt 0).
Proof.
  intros H.
  pose proof (parse_values parse_date digit_limit input r H) as Hv.
  rewrite reward_one_filled. split.
  - intros Hall. split.
    + intros k Hk E. specialize (Hall k Hk).
      apply code_filled_true in Hall.
      destruct Hall as (v & Hv' & _ & Hn). congruence.
    + intros E.
      assert (Hf : code_filled r "bytes_sent" = true)
        by (apply Hall; simpl; tauto).
      apply code_filled_true in Hf. destruct Hf as (v & Hv' & Ht & _).
      rewrite E in Hv'. injection Hv' as <-. discriminate Ht.
  - intros [Hall Hz] k Hk. apply code_filled_true.
    destruct (Hv k Hk) as (v & E & [-> | [[Ht Hn] | [-> ->]]]).
    + destruct (Hall k Hk E).
    + eauto.
    + destruct (Hz E).
Qed.

Lemma parsed_reward_zero parse_date digit_limit input query r :
  parse parse_date digit_limit input = Ok r ->
  (reward query r == 0)%Q <->
  forall k, In k total_valid_keys ->
    r !! k = Some INVALID \/ r !! k = Some (PInt 0).
Proof.
  intros H.
  pose proof (parse_values parse_date digit_limit input r H) as Hv.
  rewrite reward_zero_filled. split.
  - intros Hnone k Hk. specialize (Hnone k Hk).
    destruct (Hv k Hk) as (v & E & [-> | [[Ht Hn] | [-> ->]]]).
    + left. exact E.
    + assert (code_filled r k = true); [ | congruence ].
      apply code_filled_true. eauto.
    + right. exact E.
  - intros Hall k Hk. apply code_filled_false. intros v Hv'.
    destruct (Hall k Hk) as [E | E]; rewrite E in Hv'; injection Hv' as <-;
      [ right; reflexivity | left; reflexivity ].
Qed.

(** X15: the reward of a record that [parse] returns.  It is 1 exactly when
    no field is [INVALID] and the byte count is not zero; it is 0 exactly
    when every field is [INVALID], a byte count of zero apart. *)
Theorem reward_of_parsed_record :
  forall (parse_date : list ascii -> result datetime)
         (digit_limit : option nat) (input query : list ascii)
         (r : gmap string pyval),
    parse parse_date digit_limit input = Ok r ->
    ((reward query r == 1)%Q <->
     (forall k, In k total_valid_keys -> r !! k <> Some INVALID)
     /\ r !! "bytes_sent" <> Some (PInt 0))
    /\ ((reward query r == 0)%Q <->
        forall k, In k total_valid_keys ->
          r !! k = Some INVALID \/ r !! k = Some (PInt 0)).
Proof.
  intros pd lim input q r H. split.
  - apply (parsed_reward_one pd lim input q r H).
  - apply (parsed_reward_zero pd lim input q r H).
Qed.

Lemma reward_of_parsed_record_witness :
  ((reward [] example_record == 1)%Q <->
   (forall k, In k total_valid_keys -> example_record !! k <> Some INVALID)
   /\ example_record !! "bytes_sent" <> Some (PInt 0))
  /\ ((reward [] example_record == 0)%Q <->
      forall k, In k total_valid_keys ->
        example_record !! k = Some INVALID
        \/ example_record !! k = Some (PInt 0)).
Proof.
  apply (reward_of_parsed_record clf_parse_date default_limit example_line []
           example_record).
  reflexivity.
Defined.

(** ** The reward of a line in the order of the Common Log Format *)





(** ** The queries of the validator *)

(** X17: the query of a forward pass.  The list of example lines has three
    entries, not six: the last four literals are joined into one line.  For
    every step the index is in range, the line sent is one of the three and
    is not empty, and the same line comes back three steps later. *)
Theorem queries_run_through_three_lines :
  forall (step : Z),
    length example_loglines = 3
    /\ exists logline,
         logline_of_step step = Some logline
         /\ In logline example_loglines
         /\ logline <> []
         /\ logline_of_step (step + 3) = Some logline.
Proof.
  intros step. split; [ reflexivity | ].
  unfold logline_of_step.
  change (Z.of_nat (length example_loglines)) with 3%Z.
  cbn [Z.eqb].
  replace ((step + 3) mod 3)%Z with (step mod 3)%Z
    by (replace (step + 3)%Z with (step + 1 * 3)%Z by lia;
        rewrite Z.mod_add; lia).
  pose proof (Z.mod_pos_bound step 3 ltac:(lia)) as Hb.
  unfold py_index.
  destruct (Z.leb_spec 0 (step mod 3)) as [_ | Hneg]; [ | lia ].
  assert (Hc : (step mod 3 = 0 \/ step mod 3 = 1 \/ step mod 3 = 2)%Z) by lia.
  destruct Hc as [-> | [-> | ->]]; eexists;
    (split; [ reflexivity | split; [ simpl; tauto | split; [ discriminate | reflexivity ] ] ]).
Qed.

(** The third query is four literals in one: the method group runs from the
    first request to the second and is [INVALID], and the byte count is
    read off the address that follows. *)
Example third_query_is_read_as_one_line :
  logline_of_step 2
  = Some (chars "[21/Mar/2025 13:55:36 +0000] 192.168.1.3 - - 200 "
          ++ quoted (chars "PUT /index.html HTTP/1.1")
          ++ chars "192.168.1.4 - - 500 "
          ++ quoted (chars "GET /index.html HTTP/1.1")
          ++ chars "192.168.1.5 - - 200")
  /\ (forall l, logline_of_step 2 = Some l ->
        parse clf_parse_date default_limit l
        = Ok (keyed [("ip", PStr (chars "192.168.1.3"));
                     ("timestamp",
                      PDatetime (mkDatetime 2025 3 21 13 55 36 (Some 0%Z)));
                     ("method", INVALID);
                     ("url", PStr (chars "/index.html"));
                     ("protocol", PStr (chars "HTTP/1.1"));
                     ("status_code", PStr (chars "200"));
                     ("bytes_sent", PInt 192)])).
Proof.
  split; [ reflexivity | ].
  intros l H. vm_compute in H. injection H as <-. reflexivity.
Qed.

(** ** [process_responses] *)

Lemma process_responses_from_cases outputs responses :
  (Exists (fun response => status_differs_from_200 response = false) responses
   /\ process_responses_from outputs responses = ANone)
  \/ (Forall (fun response => status_differs_from_200 response = true)
        responses
      /\ process_responses_from outputs responses = AList outputs).
Proof.
  induction responses as [|response responses IH]; simpl.
  - right. split; [ constructor | reflexivity ].
  - destruct (status_differs_from_200 response) eqn:E.
    + destruct IH as [[Hex ->] | [Hall ->]].
      * left. split; [ apply Exists_cons_tl; exact Hex | reflexivity ].
      * right. split; [ constructor; assumption | reflexivity ].
    + left. split; [ apply Exists_cons_hd; exact E | reflexivity ].
Qed.

(** X18: [process_responses] never returns a parsed line.  It returns
    [None], the value of the call of [append], as soon as one response has
    status 200, and the empty list when none has. *)
Theorem process_responses_returns_no_logline :
  forall (responses : list Response),
    (process_responses responses = ANone
     <-> Exists (fun response => dendrite_status_code response = Some 200%Z)
           responses)
    /\ (process_responses responses = AList []
        <-> Forall (fun response => dendrite_status_code response <> Some 200%Z)
              responses)
    /\ (forall outputs, process_responses responses = AList outputs ->
          outputs = []).
Proof.
  intros responses. unfold process_responses.
  assert (H200 : forall response,
            status_differs_from_200 response = false
            <-> dendrite_status_code response = Some 200%Z).
  { intros response. unfold status_differs_from_200.
    destruct (dendrite_status_code response) as [n|];
      [ | split; discriminate ].
    rewrite negb_false_iff, Z.eqb_eq. split; congruence. }
  assert (Hn200 : forall response,
            status_differs_from_200 response = true
            <-> dendrite_status_code response <> Some 200%Z).
  { intros response. rewrite <- H200.
    destruct (status_differs_from_200 response); split; congruence. }
  destruct (process_responses_from_cases [] responses)
    as [[Hex ->] | [Hall ->]].
  - split; [ | split ].
    + split; [ intros _ | reflexivity ].
      eapply Exists_impl; [ exact Hex | ]. intros r. apply H200.
    + split; [ discriminate | ]. intros Hall. exfalso.
      apply Exists_exists in Hex. destruct Hex as (r & Hr & E).
      rewrite Forall_forall in Hall. apply (Hall r Hr). apply H200, E.
    + discriminate.
  - split; [ | split ].
    + split; [ discriminate | ]. intros Hex. exfalso.
      apply Exists_exists in Hex. destruct Hex as (r & Hr & E).
      rewrite Forall_forall in Hall. specialize (Hall r Hr).
      apply Hn200 in Hall. congruence.
    + split; [ intros _ | reflexivity ].
      eapply Forall_impl; [ exact Hall | ]. intros r. apply Hn200.
    + intros outputs E. injection E as <-. reflexivity.
Qed.
